(** * Block indexing, arrival extraction, de-duplication and phase matching

    A shallow embedding of [seismic/cluster/cluster.py]: the block indexer
    [_find_block], the per-event extractor [process_event], the batch driver
    [process_many_events], the median filter [sort], the P/S matcher
    [match] and the inventory reader [read_stations].

    Conventions of the embedding.
    - Python [float] values are embedded as exact rationals ([Q]); Python
      [==], [>] on floats are [Qeq], [Qlt].  NaN and the infinities have no
      counterpart: a coordinate that is not finite makes [round] raise before
      a row is written, and a travel time is the difference of two
      timestamps.  Binary rounding of [/], [+] and [-] is not modelled.
    - The exact rationals cannot overflow, so that in [_find_block] the
      built-in [round] never raises.  [Float._find_block] is the indexer
      once more over the float operations of the interpreter, where a
      quotient can be infinite or NaN and [round] raises on it;
      [_find_block] is [Float._find_block] at the exact arithmetic.
    - Python [int] values are [Z].
    - The coordinates, depth and time of an origin and the coordinates of a
      station are numbers: an origin without depth and a station cell that
      [float] rejects are not represented.
    - A raised exception is the [Raise] alternative of [result]; stateful code
      threads the two csv writers and the log through [io].
    - A pandas [DataFrame] is the list of its rows, in frame order; the index
      column that [to_csv] adds and [\[column_names\]] drops again is not
      represented.  Reading and writing the csv files is outside the
      embedding: [sort] and [match] are functions of the frames that
      [read_csv] returns. *)

From Stdlib Require Import ZArith QArith Qround Qabs Lqa Lia Ascii String.
From stdpp Require Import base tactics option list strings gmap sorting.

Local Open Scope Z_scope.

(** ** Python exceptions and results *)

Inductive exn : Type :=
  | ZeroDivisionError
  | AttributeError
  | ValueError
  | OverflowError.

Inductive result (A : Type) : Type :=
  | Ok (a : A)
  | Raise (e : exn).
Arguments Ok {A} a.
Arguments Raise {A} e.

Definition result_bind {A B} (m : result A) (f : A → result B) : result B :=
  match m with
  | Ok a => f a
  | Raise e => Raise e
  end.

#[global] Instance result_ret : MRet result := λ A a, Ok a.
#[global] Instance result_mbind : MBind result := λ A B f m, result_bind m f.

(** ** Python arithmetic on floats *)

Module Py.

(** [a / b] on floats: [ZeroDivisionError] when the divisor is zero. *)
Definition div (a b : Q) : result Q :=
  if Qeq_bool b 0 then Raise ZeroDivisionError else Ok (a / b)%Q.

(** The two roundings of the built-in [round]: Python 3 rounds a tie to the
    even neighbour, Python 2 away from zero.  The module is written for both
    interpreters ([from __future__ import ...]). *)
Inductive rounding : Type := HalfEven | HalfAway.

Definition round_half_even (q : Q) : Z :=
  let f := Qfloor q in
  match (q - inject_Z f ?= 1 # 2)%Q with
  | Lt => f
  | Gt => f + 1
  | Eq => if Z.even f then f else f + 1
  end.

Definition round_half_away (q : Q) : Z :=
  if Qle_bool 0 q then Qfloor (q + (1 # 2)) else Qceiling (q - (1 # 2)).

Definition round (m : rounding) (q : Q) : Z :=
  match m with
  | HalfEven => round_half_even q
  | HalfAway => round_half_away q
  end.

(** [int(x)]: truncation towards zero. *)
Definition int (q : Q) : Z := Z.quot (Qnum q) (Z.pos (Qden q)).

(** [str.split()] without argument: the maximal runs of non-blank
    characters.  [cur] holds the current run, reversed. *)
Definition is_space (c : ascii) : bool :=
  bool_decide (c ∈ [" "; "009"; "010"; "011"; "012"; "013"]%char).

Fixpoint split_from (cur : list ascii) (s : string) : list string :=
  match s with
  | EmptyString =>
      match cur with [] => [] | _ => [string_of_list_ascii (rev cur)] end
  | String c s' =>
      if is_space c then
        match cur with
        | [] => split_from [] s'
        | _ => string_of_list_ascii (rev cur) :: split_from [] s'
        end
      else split_from (c :: cur) s'
  end.

Definition split (s : string) : list string := split_from [] s.

(** [a, b = xs]: [ValueError] unless [xs] has exactly two items. *)
Definition unpack2 {A} (xs : list A) : result (A * A) :=
  match xs with
  | [a; b] => Ok (a, b)
  | _ => Raise ValueError
  end.

(** Attribute access on a value that may be [None]. *)
Definition attr {A} (o : option A) : result A :=
  match o with
  | Some a => Ok a
  | None => Raise AttributeError
  end.

End Py.

(** ** BlockIndexer: [_find_block] *)

(** [x = lon if lon > 0 else lon + 360.0] *)
Definition normalize_lon (lon : Q) : Q :=
  if Qlt_le_dec 0 lon then lon else (lon + 360)%Q.

Definition _find_block (mode : Py.rounding)
    (dx dy dz : Q) (nx ny : Z) (lat lon z : Q) : result Z :=
  let y := (90 - lat)%Q in
  let x := normalize_lon lon in
  qi ← Py.div x dx;
  let i := Py.round mode qi + 1 in
  qj ← Py.div y dy;
  let j := Py.round mode qj + 1 in
  qk ← Py.div z dz;
  let k := Py.round mode qk + 1 in
  let block_number := (k - 1) * nx * ny + (j - 1) * nx + i in
  (* [int(block_number)]: the identity on an integer (Python 3), an exact
     conversion of an integral float (Python 2) *)
  Ok block_number.

(** The grid steps as [process_event] derives them: [dx = 360. / nx],
    [dy = 180. / ny]. *)
Definition grid_steps (nx ny : Z) : result (Q * Q) :=
  dx ← Py.div 360 (inject_Z nx);
  dy ← Py.div 180 (inject_Z ny);
  Ok (dx, dy).

(** BlockIndexer on a GridSpec [(nx, ny, dz)]: the two statements of
    [grid_steps] followed by the call of [_find_block], as [process_event]
    does for the origin and for each station. *)
Definition block_id (mode : Py.rounding)
    (nx ny : Z) (dz : Q) (lat lon z : Q) : result Z :=
  '(dx, dy) ← grid_steps nx ny;
  _find_block mode dx dy dz nx ny lat lon z.

(** ** BlockIndexer over the arithmetic of the interpreter *)

(** The exact rationals above have no infinity and no NaN, and their
    quotients are not rounded.  Here the indexer is given once more, as
    Python 3 evaluates it, over the float operations themselves: [F] holds
    the doubles, the infinities and NaN included, and the operations are
    those of the machine.  What the interpreter adds to them is written out:
    the conversion of an int operand, the test of the divisor, the two
    failures of [round]. *)
Module Float.

Record arith (F : Type) : Type := mk_arith {
  (** the float of an int, none when the int is too large for a float *)
  of_Z : Z → option F;
  (** the literals [90.], [180.], [360.] and [0.0] *)
  lit : Z → F;
  (** [x == 0], [x != x], [abs(x) == inf], [x > 0] *)
  is_zero : F → bool;
  is_nan : F → bool;
  is_inf : F → bool;
  gt0 : F → bool;
  (** the machine's sum, difference and quotient *)
  add : F → F → F;
  sub : F → F → F;
  quot : F → F → F;
  (** the nearest integer of a finite float *)
  rnd : F → Z
}.
Arguments mk_arith {F}.
Arguments of_Z {F}.
Arguments lit {F}.
Arguments is_zero {F}.
Arguments is_nan {F}.
Arguments is_inf {F}.
Arguments gt0 {F}.
Arguments add {F}.
Arguments sub {F}.
Arguments quot {F}.
Arguments rnd {F}.

Section Indexer.

Context {F : Type} (A : arith F).

(** The int operand of [360. / nx]: [OverflowError] when it has no float. *)
Definition float_of_int (n : Z) : result F :=
  match of_Z A n with
  | Some f => Ok f
  | None => Raise OverflowError
  end.

(** [a / b] on floats. *)
Definition truediv (a b : F) : result F :=
  if is_zero A b then Raise ZeroDivisionError else Ok (quot A a b).

(** [round(x)] with one argument: an int, [ValueError] for NaN and
    [OverflowError] for an infinity. *)
Definition round (x : F) : result Z :=
  if is_nan A x then Raise ValueError
  else if is_inf A x then Raise OverflowError
  else Ok (rnd A x).

Definition finite (x : F) : Prop := is_nan A x = false ∧ is_inf A x = false.

(** [x = lon if lon > 0 else lon + 360.0] *)
Definition normalize_lon (lon : F) : F :=
  if gt0 A lon then lon else add A lon (lit A 360).

Definition _find_block (dx dy dz : F) (nx ny : Z) (lat lon z : F)
    : result Z :=
  let y := sub A (lit A 90) lat in
  let x := normalize_lon lon in
  qi ← truediv x dx;
  ri ← round qi;
  let i := ri + 1 in
  qj ← truediv y dy;
  rj ← round qj;
  let j := rj + 1 in
  qk ← truediv z dz;
  rk ← round qk;
  let k := rk + 1 in
  let block_number := (k - 1) * nx * ny + (j - 1) * nx + i in
  Ok block_number.

(** [dx = 360. / nx], [dy = 180. / ny] *)
Definition grid_steps (nx ny : Z) : result (F * F) :=
  fx ← float_of_int nx;
  dx ← truediv (lit A 360) fx;
  fy ← float_of_int ny;
  dy ← truediv (lit A 180) fy;
  Ok (dx, dy).

Definition block_id (nx ny : Z) (dz lat lon z : F) : result Z :=
  '(dx, dy) ← grid_steps nx ny;
  _find_block dx dy dz nx ny lat lon z.

(** The cell index of the claim: [round(x / d) + 1]. *)
Definition cell (x d : F) : Z := rnd A (quot A x d) + 1.

(** What the doubles satisfy and the statements on exceptions rely on: zero
    is the float of the int 0 only, and a grid step is never zero. *)
Record lawful : Prop := mk_lawful {
  of_Z_zero : ∃ f, of_Z A 0 = Some f;
  is_zero_of_Z : ∀ n f, of_Z A n = Some f → (is_zero A f = true ↔ n = 0);
  step_not_zero : ∀ n f, of_Z A n = Some f → is_zero A f = false →
    is_zero A (quot A (lit A 360) f) = false
    ∧ is_zero A (quot A (lit A 180) f) = false
}.

End Indexer.

(** The arithmetic of the exact rationals: every int has a float, nothing is
    infinite or NaN, no result is rounded. *)
Definition exact (mode : Py.rounding) : arith Q :=
  mk_arith (λ n, Some (inject_Z n)) inject_Z
    (λ q, Qeq_bool q 0) (λ _, false) (λ _, false)
    (λ q, if Qlt_le_dec 0 q then true else false)
    Qplus Qminus Qdiv (Py.round mode).

(** The rationals with a largest finite magnitude [M]: a sum, difference or
    quotient beyond [M] is an infinity, as it is for the doubles; nothing is
    rounded otherwise. *)
Inductive ranged : Type :=
  | Fin (q : Q)
  | Inf (negative : bool)
  | NaN.

Definition fit (M : Q) (q : Q) : ranged :=
  if Qle_bool (Qabs q) M then Fin q else Inf (negb (Qle_bool 0 q)).

Definition ranged_neg (x : ranged) : ranged :=
  match x with
  | Fin q => Fin (- q)
  | Inf s => Inf (negb s)
  | NaN => NaN
  end.

Definition ranged_add (M : Q) (x y : ranged) : ranged :=
  match x, y with
  | Fin a, Fin b => fit M (a + b)
  | Fin _, Inf s => Inf s
  | Inf s, Fin _ => Inf s
  | Inf s, Inf t => if Bool.eqb s t then Inf s else NaN
  | _, _ => NaN
  end.

Definition ranged_quot (M : Q) (x y : ranged) : ranged :=
  match x, y with
  | Fin a, Fin b => fit M (a / b)
  | Fin _, Inf _ => Fin 0
  | Inf s, Fin b => Inf (xorb s (negb (Qle_bool 0 b)))
  | _, _ => NaN
  end.

Definition with_range (mode : Py.rounding) (M : Q) : arith ranged :=
  mk_arith
    (λ n, if Qle_bool (Qabs (inject_Z n)) M then Some (Fin (inject_Z n))
          else None)
    (λ n, Fin (inject_Z n))
    (λ x, match x with Fin q => Qeq_bool q 0 | _ => false end)
    (λ x, match x with NaN => true | _ => false end)
    (λ x, match x with Inf _ => true | _ => false end)
    (λ x, match x with
          | Fin q => if Qlt_le_dec 0 q then true else false
          | Inf s => negb s
          | NaN => false
          end)
    (ranged_add M)
    (λ x y, ranged_add M x (ranged_neg y))
    (ranged_quot M)
    (λ x, match x with Fin q => Py.round mode q | _ => 0 end).

(** The largest finite double. *)
Definition max_double : Q := inject_Z (2 ^ 1024 - 2 ^ 971).

End Float.

(** ** Arrival rows *)

(** One csv row, fields in the order of [column_names]; [residual] is [None]
    for an empty cell. *)
Record ArrivalRow : Type := mkRow {
  source_block : Z;
  station_block : Z;
  residual : option Q;
  event_number : Z;
  source_longitude : Q;
  source_latitude : Q;
  source_depth : Q;
  station_longitude : Q;
  station_latitude : Q;
  observed_tt : Q;
  locations2degrees : Q;
  P_or_S : Z
}.

(** The grouping and join key [['source_block', 'station_block']]. *)
Definition key (r : ArrivalRow) : Z * Z := (source_block r, station_block r).

(** Lexicographic order of the two key columns. *)
Definition key_le (a b : Z * Z) : Prop := a.1 < b.1 ∨ (a.1 = b.1 ∧ a.2 ≤ b.2).

#[global] Instance key_le_dec : RelDecision key_le.
Proof. intros a b. unfold key_le. apply _. Defined.

#[global] Instance Qeq_decision (x y : Q) : Decision (x == y)%Q := Qeq_dec x y.
#[global] Instance Qle_decision (x y : Q) : Decision (x <= y)%Q.
Proof. destruct (Qlt_le_dec y x); [right; lra | left; assumption]. Defined.
#[global] Instance Qlt_decision (x y : Q) : Decision (x < y)%Q.
Proof. destruct (Qlt_le_dec x y); [left; assumption | right; lra]. Defined.

(** ** DedupFilter: [sort] *)

(** [DataFrame.sort_values(by=[k1, k2])]: a stable sort on the key; a row is
    placed in front of the rows whose key is not smaller. *)
Fixpoint insert_row (r : ArrivalRow) (df : list ArrivalRow) : list ArrivalRow :=
  match df with
  | [] => [r]
  | r' :: df' =>
      if decide (key_le (key r) (key r')) then r :: df
      else r' :: insert_row r df'
  end.

Definition sort_values (df : list ArrivalRow) : list ArrivalRow :=
  foldr insert_row [] df.

(** [DataFrame.groupby(by=[k1, k2])]: one group per distinct key, groups in
    ascending key order, the rows of a group in frame order. *)
Definition group_keys (df : list ArrivalRow) : list (Z * Z) :=
  merge_sort key_le (remove_dups (key <$> df)).

Definition groupby (df : list ArrivalRow) : list ((Z * Z) * list ArrivalRow) :=
  (λ k, (k, filter (λ r, key r = k) df)) <$> group_keys df.

(** [Series.median()]: the middle of the sorted values, the mean of the two
    middle ones for an even count; [None] stands for the NaN of an empty
    series. *)
Definition median (vs : list Q) : option Q :=
  let s := merge_sort Qle vs in
  let n := length s in
  if Nat.even n then
    a ← s !! (n / 2 - 1)%nat;
    b ← s !! (n / 2)%nat;
    Some ((a + b) / 2)%Q
  else s !! (n / 2)%nat.

(** [group[group['observed_tt'] == med][:1]] *)
Definition keep_group (group : list ArrivalRow) : list ArrivalRow :=
  match median (observed_tt <$> group) with
  | Some med => take 1 (filter (λ r, observed_tt r == med)%Q group)
  | None => []
  end.

(** [pd.concat(frames)]: raises [ValueError] ("No objects to concatenate") on
    an empty list of frames. *)
Definition pd_concat {A} (frames : list (list A)) : result (list A) :=
  match frames with
  | [] => Raise ValueError
  | _ => Ok (concat frames)
  end.

Definition sort (output_file : list ArrivalRow) : result (list ArrivalRow) :=
  let cluster_data := sort_values output_file in
  let groups := groupby cluster_data in
  let keep := (λ g, keep_group g.2) <$> groups in
  pd_concat keep.

(** ** PhaseMatcher: [match] *)

(** [pd.merge(left, right, how='inner', on=[k1, k2])]: every pair of a left
    and a right row with equal keys, in the order of the left rows. *)
Definition pd_merge {A B C} (kl : A → Z * Z) (kr : B → Z * Z)
    (both : A → B → C) (left : list A) (right : list B) : list C :=
  a ← left; both a <$> filter (λ b, kr b = kl a) right.

(** The function [match] of the source ([match] is a keyword here).  The
    selection [\[column_names\]] after each merge keeps the twelve fields of
    the left row. *)
Definition match_ (p_arr s_arr : list ArrivalRow)
    : list ArrivalRow * list ArrivalRow :=
  let blocks := pd_merge id id (λ k _, k) (key <$> p_arr) (key <$> s_arr) in
  let matched_P := pd_merge key id (λ r _, r) p_arr blocks in
  let matched_S := pd_merge key id (λ r _, r) s_arr blocks in
  (matched_P, matched_S).

(** ** Catalogue and inventory records *)

Module Station.
Record t : Type := make { latitude : Q; longitude : Q }.
End Station.

(** The object a [pick_id] refers to: [waveform_id.station_code] and
    [time.timestamp]. *)
Module Pick.
Record t : Type := make { station_code : string; time : Q }.
End Pick.

(** [pick_id] is [None] when [get_referred_object()] finds nothing;
    [time_residual] is optional in the catalogue, and [None] is written as an
    empty cell. *)
Module Arrival.
Record t : Type := make {
  pick_id : option Pick.t;
  phase : string;
  time_residual : option Q
}.
End Arrival.

Module Origin.
Record t : Type := make {
  latitude : Q;
  longitude : Q;
  depth : Q;
  time : Q;
  arrivals : list Arrival.t
}.
End Origin.

(** [creation_time] is the timestamp of [creation_info.creation_time], [None]
    when the event has no creation info; [preferred_origin] is what
    [event.preferred_origin()] returns. *)
Module Event.
Record t : Type := make {
  resource_id : string;
  creation_time : option Q;
  preferred_origin : option Origin.t
}.
End Event.

(** ** The csv writers and the log *)

Inductive log_record : Type :=
  | Warning_station_not_found (sta_code : string)
  | Info_ignored_distance (degrees_to_source : Q)
  | Debug_processed_event (resource_id : string).

Record writers : Type := mkWriters {
  p_rows : list ArrivalRow;
  s_rows : list ArrivalRow;
  log : list log_record
}.

Definition no_output : writers := mkWriters [] [] [].

(** Computations that write rows, log, and may raise. *)
Definition io (A : Type) : Type := writers → result A * writers.

Definition io_ret {A} (a : A) : io A := λ w, (Ok a, w).

Definition io_bind {A B} (m : io A) (f : A → io B) : io B :=
  λ w, match m w with
       | (Ok a, w') => f a w'
       | (Raise e, w') => (Raise e, w')
       end.

#[global] Instance io_mret : MRet io := @io_ret.
#[global] Instance io_mbind : MBind io := λ A B f m, io_bind m f.

Definition lift {A} (m : result A) : io A := λ w, (m, w).

Definition p_writerow (r : ArrivalRow) : io unit :=
  λ w, (Ok (), mkWriters (p_rows w ++ [r]) (s_rows w) (log w)).

Definition s_writerow (r : ArrivalRow) : io unit :=
  λ w, (Ok (), mkWriters (p_rows w) (s_rows w ++ [r]) (log w)).

Definition log_emit (m : log_record) : io unit :=
  λ w, (Ok (), mkWriters (p_rows w) (s_rows w) (log w ++ [m])).

(** [for x in xs: body(x)] *)
Fixpoint for_each {A} (body : A → io unit) (xs : list A) : io unit :=
  match xs with
  | [] => io_ret ()
  | x :: xs' => io_bind (body x) (λ _, for_each body xs')
  end.

(** ** ArrivalExtractor and EventBatchProcessor *)

Section Gather.

Variable mode : Py.rounding.

(** [obspy.geodetics.locations2degrees(lat1, long1, lat2, long2)], an
    external collaborator. *)
Variable geodetic_degrees : Q → Q → Q → Q → Q.

Variable stations : gmap string Station.t.
Variables (nx ny : Z) (dz : Q).

(** The body of the loop over [origin.arrivals]; a [continue] ends it with
    [()]. *)
Definition process_arrival (wave_type : string) (p_type s_type : string)
    (ev_number : Z) (origin : Origin.t) (dx dy : Q) (event_block : Z)
    (arr : Arrival.t) : io unit :=
  let ev_latitude := Origin.latitude origin in
  let ev_longitude := Origin.longitude origin in
  let ev_depth := Origin.depth origin in
  io_bind (lift (Py.attr (Arrival.pick_id arr))) (λ pick,
  let sta_code := Pick.station_code pick in
  match stations !! sta_code with
  | None => log_emit (Warning_station_not_found sta_code)
  | Some sta =>
      let degrees_to_source :=
        geodetic_degrees ev_latitude ev_longitude
          (Station.latitude sta) (Station.longitude sta) in
      if decide (90 < degrees_to_source)%Q then
        log_emit (Info_ignored_distance degrees_to_source)
      else
        io_bind (lift (_find_block mode dx dy dz nx ny
                   (Station.latitude sta) (Station.longitude sta) 0))
        (λ station_block,
        if decide (Arrival.phase arr ∈ Py.split wave_type) then
          let writerow :=
            if decide (Arrival.phase arr = p_type) then p_writerow
            else s_writerow in
          writerow (mkRow
            event_block station_block (Arrival.time_residual arr)
            ev_number ev_longitude ev_latitude ev_depth
            (Station.longitude sta) (Station.latitude sta)
            (Pick.time pick - Origin.time origin)%Q degrees_to_source
            (if decide (Arrival.phase arr = p_type) then 1 else 2))
        else io_ret ())
  end).

Definition process_event (event : Event.t) (wave_type : string) : io unit :=
  io_bind (lift (Py.unpack2 (Py.split wave_type))) (λ '(p_type, s_type),
  io_bind (lift (Py.attr (Event.creation_time event))) (λ timestamp,
  let ev_number := Py.int (timestamp * 1000000)%Q in
  io_bind (lift (Py.attr (Event.preferred_origin event))) (λ origin,
  io_bind (lift (Py.div 360 (inject_Z nx))) (λ dx,
  io_bind (lift (Py.div 180 (inject_Z ny))) (λ dy,
  io_bind (lift (_find_block mode dx dy dz nx ny
             (Origin.latitude origin) (Origin.longitude origin)
             (Origin.depth origin))) (λ event_block,
  for_each
    (process_arrival wave_type p_type s_type ev_number origin dx dy
       event_block)
    (Origin.arrivals origin))))))).

(** The two files are opened empty; the writers are those of the [io]
    state. *)
Definition process_many_events (events : list Event.t) (wave_type : string)
    : io unit :=
  io_bind (lift (Py.unpack2 (Py.split wave_type))) (λ _,
  for_each
    (λ e, io_bind (process_event e wave_type) (λ _,
          log_emit (Debug_processed_event (Event.resource_id e))))
    events).

(** The rows of the source, as a relation: [created event wave_type code r]
    holds when [r] is the row that the body of the loop writes for some
    arrival of the preferred origin of [event], with [P_or_S] equal to
    [code]. *)
Inductive created (event : Event.t) (wave_type : string)
    : Z → ArrivalRow → Prop :=
  | created_row p_type s_type timestamp origin arr pick sta
        event_block station_block code :
      Py.split wave_type = [p_type; s_type] →
      Event.creation_time event = Some timestamp →
      Event.preferred_origin event = Some origin →
      arr ∈ Origin.arrivals origin →
      Arrival.pick_id arr = Some pick →
      stations !! Pick.station_code pick = Some sta →
      block_id mode nx ny dz (Origin.latitude origin)
        (Origin.longitude origin) (Origin.depth origin) = Ok event_block →
      block_id mode nx ny dz (Station.latitude sta) (Station.longitude sta) 0
        = Ok station_block →
      ¬ (90 < geodetic_degrees (Origin.latitude origin)
                 (Origin.longitude origin)
                 (Station.latitude sta) (Station.longitude sta))%Q →
      (Arrival.phase arr = p_type ∧ code = 1)
      ∨ (Arrival.phase arr ≠ p_type ∧ Arrival.phase arr = s_type ∧ code = 2) →
      created event wave_type code
        (mkRow event_block station_block (Arrival.time_residual arr)
           (Py.int (timestamp * 1000000)%Q)
           (Origin.longitude origin) (Origin.latitude origin)
           (Origin.depth origin)
           (Station.longitude sta) (Station.latitude sta)
           (Pick.time pick - Origin.time origin)%Q
           (geodetic_degrees (Origin.latitude origin)
              (Origin.longitude origin)
              (Station.latitude sta) (Station.longitude sta))
           code).

End Gather.

(** [w'] holds the rows of [w] followed by new rows that satisfy [Pp] in the
    first file and [Ps] in the second. *)
Definition extends (Pp Ps : ArrivalRow → Prop) (w w' : writers) : Prop :=
  ∃ newp news,
    p_rows w' = p_rows w ++ newp ∧ s_rows w' = s_rows w ++ news
    ∧ Forall Pp newp ∧ Forall Ps news.

(** ** Auxiliary notions for the statements *)

(** The rows of key [k]. *)
Abbreviation with_key k := (λ r : ArrivalRow, key r = k).

(** Strict lexicographic order of keys. *)
Definition key_lt (a b : Z * Z) : Prop := key_le a b ∧ a ≠ b.

(** The first row of a group whose travel time is the median of the group. *)
Definition first_match (g : list ArrivalRow) : option ArrivalRow :=
  med ← median (observed_tt <$> g);
  head (filter (λ r, observed_tt r == med)%Q g).

(** ** Sample inputs *)

(** A row of which only the key and the travel time matter. *)
Definition row_tt (sb stb : Z) (tt : Q) : ArrivalRow :=
  mkRow sb stb None 0 0 0 0 0 0 tt 0 1.

(** The same, with an event number that tells equal observations apart. *)
Definition row_ev (sb stb ev : Z) (tt : Q) : ArrivalRow :=
  mkRow sb stb None ev 0 0 0 0 0 tt 0 1.

(** The distance in degrees of two points of one meridian; the sample
    stations and origins below all lie on the meridian of 10 degrees east. *)
Definition meridian_degrees (lat1 long1 lat2 long2 : Q) : Q :=
  Qabs (lat1 - lat2).

Definition sample_stations : gmap string Station.t :=
  list_to_map [("AAA", Station.make (-60) 10); ("BBB", Station.make 30 10);
               ("FAR", Station.make (-6001 # 100) 10)]%string.

(** Seen from latitude 30: [AAA] is at 90 degrees exactly, [FAR] at 90.01,
    [CCC] is not in the inventory, [Pn] is not a phase of the pair [P S]. *)
Definition sample_arrivals : list Arrival.t :=
  [Arrival.make (Some (Pick.make "AAA" 1010)) "P" (Some (1 # 2)%Q);
   Arrival.make (Some (Pick.make "BBB" 1020)) "S" (Some (1 # 3)%Q);
   Arrival.make (Some (Pick.make "CCC" 1020)) "S" (Some (1 # 3)%Q);
   Arrival.make (Some (Pick.make "FAR" 1011)) "P" None;
   Arrival.make (Some (Pick.make "BBB" 1005)) "Pn" (Some (1 # 5)%Q)]%string.

Definition sample_origin : Origin.t :=
  Origin.make 30 10 1000 1000 sample_arrivals.

Definition sample_event : Event.t :=
  Event.make "ev1" (Some (15 # 10)%Q) (Some sample_origin).

Definition event_without_origin : Event.t :=
  Event.make "ev0" (Some 1%Q) None.

(** An origin 1000 m above sea level. *)
Definition event_above_sea_level : Event.t :=
  Event.make "ev2" (Some 2%Q)
    (Some (Origin.make 30 10 (-1000) 1000 sample_arrivals)).

(** The gather stage on the sample inventory and the default grid. *)
Definition sample_gather (events : list Event.t) (wave_type : string)
    : result unit * writers :=
  process_many_events Py.HalfEven meridian_degrees sample_stations
    1440 720 25 events wave_type no_output.

(** ** Auxiliary notions for the further properties *)

(** How often a key occurs in a column of keys. *)
Definition occurrences (k : Z * Z) (ks : list (Z * Z)) : nat :=
  length (filter (λ b, id b = k) ks).

(** What is written after [w] when [d] is written from scratch. *)
Definition wappend (w d : writers) : writers :=
  mkWriters (p_rows w ++ p_rows d) (s_rows w ++ s_rows d) (log w ++ log d).

(** A computation writes at the end of the files, without looking at what
    they hold. *)
Definition framed {A} (m : io A) : Prop :=
  ∀ w, m w = ((m no_output).1, wappend w (m no_output).2).

(** The arrivals that [process_event] iterates over. *)
Definition event_arrivals (event : Event.t) : list Arrival.t :=
  match Event.preferred_origin event with
  | Some origin => Origin.arrivals origin
  | None => []
  end.

Section PassedOver.

Variable geodetic_degrees : Q → Q → Q → Q → Q.
Variable stations : gmap string Station.t.

(** The arrivals that the loop body passes over: the station is not in the
    inventory, or it is beyond 90 degrees, or the phase is not in the
    pair. *)
Definition passed_over (wave_type : string) (origin : Origin.t)
    (arr : Arrival.t) : bool :=
  match Arrival.pick_id arr with
  | None => false
  | Some pick =>
      match stations !! Pick.station_code pick with
      | None => true
      | Some sta =>
          bool_decide
            (90 < geodetic_degrees (Origin.latitude origin)
                    (Origin.longitude origin)
                    (Station.latitude sta) (Station.longitude sta))%Q
          || negb (bool_decide (Arrival.phase arr ∈ Py.split wave_type))
      end
  end.

(** The event without the arrivals of its preferred origin that are passed
    over. *)
Definition without_passed_over (wave_type : string) (event : Event.t)
    : Event.t :=
  Event.make (Event.resource_id event) (Event.creation_time event)
    ((λ o, Origin.make (Origin.latitude o) (Origin.longitude o)
             (Origin.depth o) (Origin.time o)
             (List.filter (λ arr, negb (passed_over wave_type o arr))
                (Origin.arrivals o)))
     <$> Event.preferred_origin event).

End PassedOver.

(** The rows of the two files, counted together. *)
Definition rows_written (w : writers) : nat :=
  length (p_rows w) + length (s_rows w).

(** ** Station inventory: [read_stations] *)

(** The exceptions of [read_stations]: [next(reader)] on a file without a
    line, and [Station._make] on a line with the wrong number of cells. *)
Inductive read_exn : Type := StopIteration | TypeError.

Section ReadStations.

(** The named tuple [Station] is declared by the inventory package: its type,
    its constructor from a csv line and its field [station_code] are
    parameters here. *)
Variable Rec : Type.
Variable _make : list string → option Rec.
Variable station_code : Rec → string.

(** [for station in map(Station._make, reader):
        stations_dict[station.station_code] = station] *)
Fixpoint read_rows (stations_dict : gmap string Rec)
    (reader : list (list string)) : read_exn + gmap string Rec :=
  match reader with
  | [] => inr stations_dict
  | line :: reader' =>
      match _make line with
      | None => inl TypeError
      | Some station =>
          read_rows (<[station_code station := station]> stations_dict)
            reader'
      end
  end.

(** [read_stations] on the lines of the csv file. *)
Definition read_stations (reader : list (list string))
    : read_exn + gmap string Rec :=
  match reader with
  | [] => inl StopIteration
  | _header :: reader' => read_rows ∅ reader'
  end.

End ReadStations.

(** * Properties *)

(** ** Python arithmetic *)

Lemma div_ok (a b : Q) : ¬ (b == 0)%Q → Py.div a b = Ok (a / b)%Q.
Proof.
  intros Hb. unfold Py.div.
  destruct (Qeq_bool b 0) eqn:E; [|reflexivity].
  apply Qeq_bool_iff in E. contradiction.
Qed.

Lemma div_zero (a b : Q) : (b == 0)%Q → Py.div a b = Raise ZeroDivisionError.
Proof.
  intros Hb. unfold Py.div. apply Qeq_bool_iff in Hb. rewrite Hb. reflexivity.
Qed.

Lemma inject_Z_nonzero (n : Z) : n ≠ 0 → ¬ (inject_Z n == 0)%Q.
Proof. unfold Qeq. simpl. lia. Qed.

Lemma Qfloor_nonneg (q : Q) : (0 <= q)%Q → 0 ≤ Qfloor q.
Proof. intros H. apply Qfloor_resp_le in H. exact H. Qed.

Lemma round_nonneg (m : Py.rounding) (q : Q) : (0 <= q)%Q → 0 ≤ Py.round m q.
Proof.
  intros H. pose proof (Qfloor_nonneg q H) as Hf. destruct m; simpl.
  - unfold Py.round_half_even.
    destruct (q - inject_Z (Qfloor q) ?= 1 # 2)%Q; [|lia|lia].
    destruct (Z.even (Qfloor q)); lia.
  - unfold Py.round_half_away.
    destruct (Qle_bool 0 q) eqn:E.
    + apply Qfloor_nonneg. lra.
    + apply Qle_bool_iff in H. congruence.
Qed.

Lemma Qdiv_nonneg (a b : Q) : (0 <= a)%Q → (0 < b)%Q → (0 <= a / b)%Q.
Proof.
  intros Ha Hb. unfold Qdiv. apply Qmult_le_0_compat; [exact Ha|].
  apply Qlt_le_weak, Qinv_lt_0_compat, Hb.
Qed.

(** ** BlockIndexer *)

Lemma grid_steps_ok (nx ny : Z) :
  nx ≠ 0 → ny ≠ 0 →
  grid_steps nx ny = Ok ((360 / inject_Z nx)%Q, (180 / inject_Z ny)%Q).
Proof.
  intros Hx Hy. unfold grid_steps.
  rewrite (div_ok _ _ (inject_Z_nonzero nx Hx)). simpl.
  rewrite (div_ok _ _ (inject_Z_nonzero ny Hy)). reflexivity.
Qed.

Lemma grid_step_nonzero (c : Q) (n : Z) :
  ¬ (c == 0)%Q → n ≠ 0 → ¬ (c / inject_Z n == 0)%Q.
Proof.
  intros Hc Hn H. apply inject_Z_nonzero in Hn.
  apply Hc. rewrite <- (Qmult_div_r c (inject_Z n) Hn), H. ring.
Qed.

Lemma find_block_ok (mode : Py.rounding) (dx dy dz : Q) (nx ny : Z)
    (lat lon z : Q) :
  ¬ (dx == 0)%Q → ¬ (dy == 0)%Q → ¬ (dz == 0)%Q →
  _find_block mode dx dy dz nx ny lat lon z =
  Ok ((Py.round mode (z / dz) + 1 - 1) * nx * ny
      + (Py.round mode ((90 - lat) / dy) + 1 - 1) * nx
      + (Py.round mode (normalize_lon lon / dx) + 1)).
Proof.
  intros Hx Hy Hz. unfold _find_block.
  rewrite (div_ok _ _ Hx). simpl.
  rewrite (div_ok _ _ Hy). simpl.
  rewrite (div_ok _ _ Hz). reflexivity.
Qed.

Lemma normalize_lon_pos (lon : Q) : (-360 < lon)%Q → (0 < normalize_lon lon)%Q.
Proof. intros H. unfold normalize_lon. destruct (Qlt_le_dec 0 lon); lra. Qed.

(** In-range coordinates on a positive grid give a block number of at least
    one. *)
Lemma block_id_positive (mode : Py.rounding) (nx ny : Z) (dz lat lon z : Q) :
  0 < nx → 0 < ny → (0 < dz)%Q →
  (lat <= 90)%Q → (-360 < lon)%Q → (0 <= z)%Q →
  ∃ b, block_id mode nx ny dz lat lon z = Ok b ∧ 1 ≤ b.
Proof.
  intros Hnx Hny Hdz Hlat Hlon Hz. unfold block_id.
  rewrite grid_steps_ok by lia. simpl.
  assert (0 < inject_Z nx)%Q as Hqx by (unfold Qlt; simpl; lia).
  assert (0 < inject_Z ny)%Q as Hqy by (unfold Qlt; simpl; lia).
  assert (0 < 360 / inject_Z nx)%Q as Hdx
    by (apply Qlt_shift_div_l; [exact Hqx | lra]).
  assert (0 < 180 / inject_Z ny)%Q as Hdy
    by (apply Qlt_shift_div_l; [exact Hqy | lra]).
  rewrite find_block_ok by lra.
  eexists. split; [reflexivity|].
  pose proof (normalize_lon_pos lon Hlon) as Hx.
  pose proof (round_nonneg mode (normalize_lon lon / (360 / inject_Z nx)))
    as Hi.
  pose proof (round_nonneg mode ((90 - lat) / (180 / inject_Z ny))) as Hj.
  pose proof (round_nonneg mode (z / dz)) as Hk.
  specialize (Hi ltac:(apply Qdiv_nonneg; lra)).
  specialize (Hj ltac:(apply Qdiv_nonneg; lra)).
  specialize (Hk ltac:(apply Qdiv_nonneg; lra)).
  nia.
Qed.

(** The default grid at latitude 0, longitude 0 and depth 0: the cell
    [i = 1441], [j = 361], [k = 1], in both rounding modes. *)
Example block_id_origin :
  block_id Py.HalfEven 1440 720 25 0 0 0 = Ok 519841
  ∧ block_id Py.HalfAway 1440 720 25 0 0 0 = Ok 519841.
Proof. vm_compute. split; reflexivity. Qed.

(** The indexer on exact rationals is the indexer on floats at the exact
    arithmetic. *)
Lemma exact_find_block (mode : Py.rounding) (dx dy dz : Q) (nx ny : Z)
    (lat lon z : Q) :
  Float._find_block (Float.exact mode) dx dy dz nx ny lat lon z
  = _find_block mode dx dy dz nx ny lat lon z.
Proof.
  unfold Float._find_block, _find_block, Float.truediv, Float.round, Py.div.
  assert (Float.normalize_lon (Float.exact mode) lon = normalize_lon lon)
    as -> by (unfold Float.normalize_lon, normalize_lon; simpl;
              destruct (Qlt_le_dec 0 lon); reflexivity).
  simpl. destruct (Qeq_bool dx 0); [reflexivity|]. simpl.
  destruct (Qeq_bool dy 0); [reflexivity|]. simpl.
  destruct (Qeq_bool dz 0); reflexivity.
Qed.

Lemma exact_block_id (mode : Py.rounding) (nx ny : Z) (dz lat lon z : Q) :
  Float.block_id (Float.exact mode) nx ny dz lat lon z
  = block_id mode nx ny dz lat lon z.
Proof.
  unfold Float.block_id, block_id, Float.grid_steps, grid_steps,
    Float.float_of_int, Float.truediv, Py.div.
  simpl. destruct (Qeq_bool (inject_Z nx) 0); [reflexivity|]. simpl.
  destruct (Qeq_bool (inject_Z ny) 0); [reflexivity|]. simpl.
  apply exact_find_block.
Qed.

(** The exact arithmetic is lawful. *)
Lemma exact_lawful (mode : Py.rounding) : Float.lawful (Float.exact mode).
Proof.
  split.
  - exists 0%Q. reflexivity.
  - intros n f [= <-]. simpl. rewrite Qeq_bool_iff. unfold Qeq. simpl. lia.
  - intros n f [= <-]. simpl. intros Hn.
    assert (n ≠ 0) as Hn'.
    { intros ->. discriminate. }
    split; apply not_true_is_false; intros E; apply Qeq_bool_iff in E;
      revert E; apply grid_step_nonzero; (discriminate || exact Hn').
Qed.

(** So is the arithmetic with a largest finite magnitude. *)
Lemma with_range_lawful (mode : Py.rounding) (M : Q) :
  (0 <= M)%Q → Float.lawful (Float.with_range mode M).
Proof.
  intros HM. split.
  - cbn [Float.of_Z Float.with_range].
    destruct (Qle_bool (Qabs (inject_Z 0)) M) eqn:E; [eexists; reflexivity|].
    apply not_true_iff_false in E. exfalso. apply E, Qle_bool_iff. exact HM.
  - intros n f. simpl. destruct (Qle_bool _ M); [|discriminate].
    intros [= <-]. rewrite Qeq_bool_iff. unfold Qeq. simpl. lia.
  - intros n f. simpl. destruct (Qle_bool _ M); [|discriminate].
    intros [= <-] Hn.
    assert (n ≠ 0) as Hn' by (intros ->; discriminate).
    unfold Float.fit.
    split; destruct (Qle_bool _ M); try reflexivity;
      apply not_true_is_false; intros E; apply Qeq_bool_iff in E;
      revert E; apply grid_step_nonzero; (discriminate || exact Hn').
Qed.

Lemma float_round_Ok {F} (A : Float.arith F) (x : F) (r : Z) :
  Float.round A x = Ok r ↔ Float.finite A x ∧ r = Float.rnd A x.
Proof.
  unfold Float.round, Float.finite.
  destruct (Float.is_nan A x), (Float.is_inf A x); split;
    try discriminate; try (intros [[? ?] _]; discriminate).
  - intros [= <-]. auto.
  - intros [_ ->]. reflexivity.
Qed.

Lemma float_truediv_Ok {F} (A : Float.arith F) (a b q : F) :
  Float.truediv A a b = Ok q
  ↔ Float.is_zero A b = false ∧ q = Float.quot A a b.
Proof.
  unfold Float.truediv. destruct (Float.is_zero A b); split;
    try discriminate; try (intros [? _]; discriminate).
  - intros [= <-]. auto.
  - intros [_ ->]. reflexivity.
Qed.

Lemma float_find_block_Ok {F} (A : Float.arith F) (dx dy dz : F) (nx ny : Z)
    (lat lon z : F) (b : Z) :
  Float._find_block A dx dy dz nx ny lat lon z = Ok b
  ↔ Float.is_zero A dx = false ∧ Float.is_zero A dy = false
    ∧ Float.is_zero A dz = false
    ∧ Float.finite A (Float.quot A (Float.normalize_lon A lon) dx)
    ∧ Float.finite A (Float.quot A (Float.sub A (Float.lit A 90) lat) dy)
    ∧ Float.finite A (Float.quot A z dz)
    ∧ b = (Float.cell A z dz - 1) * nx * ny
          + (Float.cell A (Float.sub A (Float.lit A 90) lat) dy - 1) * nx
          + Float.cell A (Float.normalize_lon A lon) dx.
Proof.
  unfold Float._find_block, Float.cell.
  set (x := Float.normalize_lon A lon).
  set (y := Float.sub A (Float.lit A 90) lat).
  destruct (Float.truediv A x dx) as [qi|e] eqn:Hqi; simpl.
  2:{ split; [discriminate|]. intros (Hx & _).
      unfold Float.truediv in Hqi. rewrite Hx in Hqi. discriminate. }
  apply float_truediv_Ok in Hqi as [Hx ->].
  destruct (Float.round A (Float.quot A x dx)) as [ri|e] eqn:Hri; simpl.
  2:{ split; [discriminate|]. intros (_ & _ & _ & Hf & _).
      pose proof (proj2 (float_round_Ok A _ _) (conj Hf eq_refl)) as E.
      rewrite E in Hri. discriminate. }
  apply float_round_Ok in Hri as [Hfi ->].
  destruct (Float.truediv A y dy) as [qj|e] eqn:Hqj; simpl.
  2:{ split; [discriminate|]. intros (_ & Hy & _).
      unfold Float.truediv in Hqj. rewrite Hy in Hqj. discriminate. }
  apply float_truediv_Ok in Hqj as [Hy ->].
  destruct (Float.round A (Float.quot A y dy)) as [rj|e] eqn:Hrj; simpl.
  2:{ split; [discriminate|]. intros (_ & _ & _ & _ & Hf & _).
      pose proof (proj2 (float_round_Ok A _ _) (conj Hf eq_refl)) as E.
      rewrite E in Hrj. discriminate. }
  apply float_round_Ok in Hrj as [Hfj ->].
  destruct (Float.truediv A z dz) as [qk|e] eqn:Hqk; simpl.
  2:{ split; [discriminate|]. intros (_ & _ & Hz & _).
      unfold Float.truediv in Hqk. rewrite Hz in Hqk. discriminate. }
  apply float_truediv_Ok in Hqk as [Hz ->].
  destruct (Float.round A (Float.quot A z dz)) as [rk|e] eqn:Hrk; simpl.
  2:{ split; [discriminate|]. intros (_ & _ & _ & _ & _ & Hf & _).
      pose proof (proj2 (float_round_Ok A _ _) (conj Hf eq_refl)) as E.
      rewrite E in Hrk. discriminate. }
  apply float_round_Ok in Hrk as [Hfk ->].
  split.
  - intros [= <-]. repeat (split; [assumption|]). reflexivity.
  - intros (_ & _ & _ & _ & _ & _ & ->). reflexivity.
Qed.

Lemma float_grid_steps_Ok {F} (A : Float.arith F) (nx ny : Z) (dx dy : F) :
  Float.grid_steps A nx ny = Ok (dx, dy)
  ↔ ∃ fx fy,
      Float.of_Z A nx = Some fx ∧ Float.of_Z A ny = Some fy
      ∧ Float.is_zero A fx = false ∧ Float.is_zero A fy = false
      ∧ dx = Float.quot A (Float.lit A 360) fx
      ∧ dy = Float.quot A (Float.lit A 180) fy.
Proof.
  unfold Float.grid_steps, Float.float_of_int, Float.truediv.
  destruct (Float.of_Z A nx) as [fx|]; simpl.
  2:{ split; [discriminate | intros (? & ? & ? & _); discriminate]. }
  destruct (Float.is_zero A fx) eqn:Zx; simpl.
  { split; [discriminate | intros (? & ? & [= <-] & _ & ? & _); congruence]. }
  destruct (Float.of_Z A ny) as [fy|]; simpl.
  2:{ split; [discriminate | intros (? & ? & _ & ? & _); discriminate]. }
  destruct (Float.is_zero A fy) eqn:Zy; simpl.
  { split; [discriminate
           | intros (? & ? & _ & [= <-] & _ & ? & _); congruence]. }
  split.
  - intros [= <- <-]. exists fx, fy. repeat split; assumption || reflexivity.
  - intros (? & ? & [= <-] & [= <-] & _ & _ & -> & ->). reflexivity.
Qed.

(** C3 (as stated): a GridSpec with [dz = 0] makes the indexer raise instead
    of returning a block number. *)
Lemma block_id_zero_dz :
  block_id Py.HalfEven 1440 720 0 (-35) 149 10000 = Raise ZeroDivisionError.
Proof. vm_compute. reflexivity. Qed.

(** C3 (amended): for every GridSpec and all coordinates, in the arithmetic
    of the interpreter, BlockIndexer returns exactly when [nx] and [ny] have
    non-zero floats, the steps [dx = 360. / nx], [dy = 180. / ny] and [dz]
    are not zero, and the three quotients [lon_norm / dx], [(90 - lat) / dy]
    and [z / dz] are finite; it then returns
    [(k-1)*nx*ny + (j-1)*nx + i] with [i = round(lon_norm/dx)+1],
    [j = round((90-lat)/dy)+1], [k = round(z/dz)+1].  No coordinate is
    tested against the grid. *)
Theorem block_id_formula {F : Type} (A : Float.arith F) (nx ny : Z)
    (dz lat lon z : F) (b : Z) :
  Float.block_id A nx ny dz lat lon z = Ok b
  ↔ ∃ fx fy,
      Float.of_Z A nx = Some fx ∧ Float.of_Z A ny = Some fy
      ∧ Float.is_zero A fx = false ∧ Float.is_zero A fy = false
      ∧ let dx := Float.quot A (Float.lit A 360) fx in
        let dy := Float.quot A (Float.lit A 180) fy in
        let x := Float.normalize_lon A lon in
        let y := Float.sub A (Float.lit A 90) lat in
        let i := Float.cell A x dx in
        let j := Float.cell A y dy in
        let k := Float.cell A z dz in
        Float.is_zero A dx = false ∧ Float.is_zero A dy = false
        ∧ Float.is_zero A dz = false
        ∧ Float.finite A (Float.quot A x dx)
        ∧ Float.finite A (Float.quot A y dy)
        ∧ Float.finite A (Float.quot A z dz)
        ∧ b = (k - 1) * nx * ny + (j - 1) * nx + i.
Proof.
  unfold Float.block_id. cbv zeta. split.
  - destruct (Float.grid_steps A nx ny) as [[dx dy]|e] eqn:Hg; [|discriminate].
    simpl. intros Hb.
    apply float_grid_steps_Ok in Hg as (fx & fy & Hx & Hy & Zx & Zy & -> & ->).
    apply float_find_block_Ok in Hb.
    exists fx, fy. repeat (split; [assumption|]). exact Hb.
  - intros (fx & fy & Hx & Hy & Zx & Zy & Hb).
    assert (Float.grid_steps A nx ny
            = Ok (Float.quot A (Float.lit A 360) fx,
                  Float.quot A (Float.lit A 180) fy)) as ->.
    { apply float_grid_steps_Ok. exists fx, fy. auto 10. }
    simpl. apply float_find_block_Ok. exact Hb.
Qed.

(** A depth far below the grid, in exact arithmetic: block number
    41472000001441, no error. *)
Lemma block_id_formula_witness :
  block_id Py.HalfEven 1440 720 25 90 0 1000000000 = Ok 41472000001441.
Proof.
  rewrite <- exact_block_id.
  apply (proj2 (block_id_formula (Float.exact Py.HalfEven) 1440 720 25%Q
                  90%Q 0%Q 1000000000%Q 41472000001441)).
  exists 1440%Q, 720%Q. vm_compute. repeat split; reflexivity.
Defined.

(** A depth step of [5e-324] with a depth of 1 m, and a latitude of [1e308]:
    the quotient is infinite and [round] raises. *)
Example block_id_overflow :
  Float.block_id (Float.with_range Py.HalfEven Float.max_double) 1440 720
    (Float.Fin (5 / inject_Z (10 ^ 324))) (Float.Fin 30) (Float.Fin 10)
    (Float.Fin 1)
  = Raise OverflowError
  ∧ Float.block_id (Float.with_range Py.HalfEven Float.max_double) 1440 720
      (Float.Fin 25) (Float.Fin (inject_Z (10 ^ 308))) (Float.Fin 10)
      (Float.Fin 0)
    = Raise OverflowError
  ∧ Float.block_id (Float.with_range Py.HalfEven Float.max_double) 1440 720
      (Float.Fin 25) (Float.Fin 30) (Float.Fin 10) (Float.Fin 1000)
    = block_id Py.HalfEven 1440 720 25 30 10 1000.
Proof. vm_compute. repeat split; reflexivity. Qed.

Example normalize_lon_samples :
  normalize_lon 0 = 360%Q
  ∧ normalize_lon (-17999 # 100) = ((-17999 # 100) + 360)%Q
  ∧ normalize_lon 180 = 180%Q.
Proof. vm_compute. repeat split; reflexivity. Qed.

(** C6 (as stated): longitude 0 is normalised to 360, outside [0, 360). *)
Lemma normalize_lon_zero :
  ¬ (0 <= normalize_lon 0 ∧ normalize_lon 0 < 360)%Q.
Proof. vm_compute. intros [_ H]. discriminate H. Qed.

(** C6 (amended): for every longitude in (-360, 360], so for every valid
    longitude including 0, -179.99 and 180.0, the normalised longitude is
    [lon + 360] when [lon <= 0] and [lon] otherwise, and lies in the half-open
    interval (0, 360]; no negative value reaches the index formula. *)
Theorem normalize_lon_range (lon : Q) :
  (-360 < lon)%Q → (lon <= 360)%Q →
  normalize_lon lon = (if decide (lon <= 0)%Q then lon + 360 else lon)%Q
  ∧ (0 < normalize_lon lon)%Q ∧ (normalize_lon lon <= 360)%Q.
Proof.
  intros Hlo Hhi. unfold normalize_lon.
  destruct (Qlt_le_dec 0 lon), (decide (lon <= 0)%Q);
    repeat split; try reflexivity; lra.
Qed.

Lemma normalize_lon_range_witness :
  normalize_lon (-17999 # 100)
  = (if decide ((-17999 # 100) <= 0)%Q then (-17999 # 100) + 360
     else (-17999 # 100))%Q
  ∧ (0 < normalize_lon (-17999 # 100))%Q
  ∧ (normalize_lon (-17999 # 100) <= 360)%Q.
Proof. apply (normalize_lon_range (-17999 # 100)); vm_compute; congruence. Defined.

(** ** DedupFilter *)

#[global] Instance key_le_refl : Reflexive key_le.
Proof. intros [a b]. unfold key_le. simpl. lia. Qed.
#[global] Instance key_le_trans : Transitive key_le.
Proof. intros [a b] [c d] [e f]. unfold key_le. simpl. lia. Qed.
#[global] Instance key_le_total : Total key_le.
Proof. intros [a b] [c d]. unfold key_le. simpl. lia. Qed.
#[global] Instance key_le_antisymm : AntiSymm (=) key_le.
Proof.
  intros [a b] [c d]. unfold key_le. simpl. intros H1 H2.
  f_equal; lia.
Qed.

(** Stability of [sort_values]: the rows of one key keep their order. *)
Lemma filter_insert_row (k : Z * Z) (r : ArrivalRow) (df : list ArrivalRow) :
  filter (with_key k) (insert_row r df) = filter (with_key k) (r :: df).
Proof.
  induction df as [|r' df IH]; simpl; [reflexivity|].
  destruct (decide (key_le (key r) (key r'))) as [|Hn]; [reflexivity|].
  assert (key r' ≠ key r) as Hne by (intros E; apply Hn; rewrite E; reflexivity).
  rewrite (filter_cons _ r'), IH, !filter_cons.
  destruct (decide (key r' = k)), (decide (key r = k)); congruence.
Qed.

Lemma filter_sort_values (k : Z * Z) (df : list ArrivalRow) :
  filter (with_key k) (sort_values df) = filter (with_key k) df.
Proof.
  induction df as [|r df IH]; simpl; [reflexivity|].
  rewrite filter_insert_row, !filter_cons, IH. reflexivity.
Qed.

Lemma elem_of_insert_row (r x : ArrivalRow) (df : list ArrivalRow) :
  x ∈ insert_row r df ↔ x = r ∨ x ∈ df.
Proof.
  induction df as [|r' df IH]; simpl.
  - rewrite list_elem_of_singleton, elem_of_nil. tauto.
  - destruct (decide (key_le (key r) (key r'))).
    + rewrite elem_of_cons. tauto.
    + rewrite !elem_of_cons, IH. tauto.
Qed.

Lemma insert_row_sorted (r : ArrivalRow) (df : list ArrivalRow) :
  StronglySorted key_le (key <$> df) →
  StronglySorted key_le (key <$> insert_row r df).
Proof.
  induction df as [|r' df IH]; intros Hs; cbn [insert_row].
  - repeat constructor.
  - destruct (decide (key_le (key r) (key r'))) as [Hle|Hnle].
    + rewrite !fmap_cons. constructor; [exact Hs|].
      rewrite fmap_cons in Hs. apply StronglySorted_cons in Hs as [Hall _].
      constructor; [exact Hle|].
      eapply Forall_impl; [exact Hall|]. intros k Hk. etransitivity; eassumption.
    + rewrite fmap_cons in Hs |- *. apply StronglySorted_cons in Hs as [Hall Hs].
      constructor; [apply IH, Hs|].
      apply Forall_forall. intros k Hk.
      apply list_elem_of_fmap in Hk as (x & -> & Hx).
      apply elem_of_insert_row in Hx as [->|Hx].
      * destruct (total key_le (key r) (key r')); [contradiction | assumption].
      * rewrite Forall_forall in Hall. apply Hall, list_elem_of_fmap_2, Hx.
Qed.

(** [sort_values] returns the rows in ascending key order. *)
Lemma sort_values_sorted_keys (df : list ArrivalRow) :
  StronglySorted key_le (key <$> sort_values df).
Proof.
  induction df as [|r df IH]; simpl; [constructor|].
  apply insert_row_sorted, IH.
Qed.

Lemma elem_of_group_keys (k : Z * Z) (df : list ArrivalRow) :
  k ∈ group_keys df ↔ k ∈ key <$> df.
Proof.
  unfold group_keys. rewrite merge_sort_Permutation.
  apply elem_of_remove_dups.
Qed.

Lemma NoDup_group_keys (df : list ArrivalRow) : NoDup (group_keys df).
Proof.
  unfold group_keys. rewrite merge_sort_Permutation. apply NoDup_remove_dups.
Qed.

Lemma group_keys_nil (df : list ArrivalRow) : group_keys df = [] ↔ df = [].
Proof.
  split; [|intros ->; reflexivity].
  intros H. destruct df as [|r df]; [reflexivity|].
  assert (key r ∈ group_keys (r :: df)) as Hin
    by (apply elem_of_group_keys; simpl; left).
  rewrite H in Hin. inversion Hin.
Qed.

Lemma keep_group_nil : keep_group [] = [].
Proof. reflexivity. Qed.

Lemma keep_group_subseteq (g : list ArrivalRow) (r : ArrivalRow) :
  r ∈ keep_group g → r ∈ g.
Proof.
  unfold keep_group. destruct (median _); [|inversion 1].
  intros H. apply elem_of_take in H as (i & H & _).
  apply list_elem_of_lookup_2 in H. apply list_elem_of_filter in H. tauto.
Qed.

Lemma filter_none {A} (P : A → Prop) `{∀ x, Decision (P x)} (l : list A) :
  (∀ x, x ∈ l → ¬ P x) → filter P l = [].
Proof.
  induction l as [|x l IH]; intros Hl; [reflexivity|].
  rewrite filter_cons_False by (apply Hl; left).
  apply IH. intros y Hy. apply Hl. right. exact Hy.
Qed.

Lemma filter_all {A} (P : A → Prop) `{∀ x, Decision (P x)} (l : list A) :
  (∀ x, x ∈ l → P x) → filter P l = l.
Proof.
  induction l as [|x l IH]; intros Hl; [reflexivity|].
  rewrite filter_cons_True by (apply Hl; left).
  f_equal. apply IH. intros y Hy. apply Hl. right. exact Hy.
Qed.

(** Selecting one key from the concatenation of per-key frames. *)
Lemma filter_concat_keys (f : Z * Z → list ArrivalRow) (ks : list (Z * Z))
    (k : Z * Z) :
  (∀ k' r, r ∈ f k' → key r = k') → NoDup ks →
  filter (with_key k) (concat (f <$> ks))
  = if decide (k ∈ ks) then f k else [].
Proof.
  intros Hf. induction 1 as [|k' ks Hk' Hnd IH].
  - reflexivity.
  - rewrite fmap_cons.
    change (concat (f k' :: (f <$> ks))) with (f k' ++ concat (f <$> ks)).
    rewrite filter_app, IH.
    destruct (decide (k = k')) as [->|Hne].
    + rewrite (decide_True (P := k' ∈ k' :: ks)) by left.
      rewrite (decide_False (P := k' ∈ ks)) by exact Hk'.
      rewrite app_nil_r. apply filter_all. intros r. apply Hf.
    + rewrite (filter_none _ (f k')).
      2:{ intros r Hr E. apply Hf in Hr. congruence. }
      simpl. destruct (decide (k ∈ ks)) as [Hin|Hnin].
      * rewrite (decide_True (P := k ∈ k' :: ks)) by (right; exact Hin).
        reflexivity.
      * rewrite (decide_False (P := k ∈ k' :: ks)); [reflexivity|].
        intros Hin. apply elem_of_cons in Hin as [?|?]; congruence.
Qed.


Lemma sort_nil : sort [] = Raise ValueError.
Proof. reflexivity. Qed.

Lemma sort_values_nil (df : list ArrivalRow) : sort_values df = [] → df = [].
Proof.
  destruct df as [|r df]; [reflexivity|]. simpl.
  destruct (sort_values df); simpl; [discriminate|].
  destruct (decide _); discriminate.
Qed.

(** [sort] fails on the empty frame only; on any other frame it returns the
    concatenation of what each group keeps. *)
Lemma sort_unfold (df : list ArrivalRow) :
  df ≠ [] →
  sort df = Ok (concat ((λ k, keep_group (filter (with_key k) (sort_values df)))
                         <$> group_keys (sort_values df))).
Proof.
  intros Hne. unfold sort, groupby. rewrite <- list_fmap_compose.
  unfold pd_concat.
  destruct (group_keys (sort_values df)) as [|k ks] eqn:E.
  - apply group_keys_nil, sort_values_nil in E. contradiction.
  - reflexivity.
Qed.

(** What [sort] keeps of one key is what the group of that key keeps, the
    group being the rows of that key in input order. *)
Lemma sort_group (df out : list ArrivalRow) (k : Z * Z) :
  sort df = Ok out →
  filter (with_key k) out = keep_group (filter (with_key k) df).
Proof.
  intros Hs. destruct (decide (df = [])) as [->|Hne]; [discriminate|].
  rewrite sort_unfold in Hs by exact Hne. injection Hs as <-.
  rewrite (filter_concat_keys
             (λ k, keep_group (filter (with_key k) (sort_values df)))).
  - rewrite filter_sort_values. destruct (decide _) as [|Hn]; [reflexivity|].
    rewrite elem_of_group_keys in Hn.
    rewrite filter_none; [reflexivity|].
    intros r Hr E. apply Hn. rewrite <- E.
    apply list_elem_of_fmap_2.
    assert (r ∈ filter (with_key (key r)) (sort_values df)) as Hin.
    { rewrite filter_sort_values. apply list_elem_of_filter. tauto. }
    apply list_elem_of_filter in Hin. tauto.
  - intros k' r Hr. apply keep_group_subseteq, list_elem_of_filter in Hr. tauto.
  - apply NoDup_group_keys.
Qed.

Lemma sort_ok_iff (df : list ArrivalRow) :
  (∃ out, sort df = Ok out) ↔ df ≠ [].
Proof.
  split.
  - intros [out H] ->. discriminate.
  - intros H. eexists. apply sort_unfold, H.
Qed.

(** *** Medians and the kept row *)

Lemma median_singleton (x : Q) : median [x] = Some x.
Proof. reflexivity. Qed.

Lemma keep_group_singleton (r : ArrivalRow) : keep_group [r] = [r].
Proof.
  unfold keep_group.
  change (median (observed_tt <$> [r])) with (Some (observed_tt r)).
  cbv beta iota.
  rewrite (filter_cons_True _ r []) by reflexivity. reflexivity.
Qed.

Lemma keep_group_first (g : list ArrivalRow) :
  keep_group g = option_list (first_match g).
Proof.
  unfold keep_group, first_match. destruct (median _) as [med|]; simpl; [|reflexivity].
  destruct (filter _ g); reflexivity.
Qed.

(** *** Frames with strictly ascending keys *)

Lemma StronglySorted_strict (ks : list (Z * Z)) :
  StronglySorted key_le ks → NoDup ks → StronglySorted key_lt ks.
Proof.
  induction 1 as [|k ks Hs IH Hall]; intros Hnd; constructor.
  - apply IH. apply NoDup_cons in Hnd. tauto.
  - apply NoDup_cons in Hnd as [Hk _].
    rewrite Forall_forall in Hall |- *. intros k' Hin. split.
    + apply Hall, Hin.
    + intros ->. exact (Hk Hin).
Qed.

Lemma group_keys_strict (df : list ArrivalRow) :
  StronglySorted key_lt (group_keys df).
Proof.
  apply StronglySorted_strict; [|apply NoDup_group_keys].
  unfold group_keys. apply StronglySorted_merge_sort; apply _.
Qed.

Lemma keep_group_length (g : list ArrivalRow) : (length (keep_group g) ≤ 1)%nat.
Proof.
  rewrite keep_group_first. destruct (first_match g); simpl; lia.
Qed.

Lemma elem_of_concat {A} (x : A) (ls : list (list A)) :
  x ∈ concat ls ↔ ∃ l, l ∈ ls ∧ x ∈ l.
Proof.
  rewrite list_elem_of_In, in_concat.
  setoid_rewrite list_elem_of_In. reflexivity.
Qed.

Lemma keys_concat_sorted (f : Z * Z → list ArrivalRow) (ks : list (Z * Z)) :
  (∀ k r, r ∈ f k → key r = k) → (∀ k, (length (f k) ≤ 1)%nat) →
  StronglySorted key_lt ks →
  StronglySorted key_lt (key <$> concat (f <$> ks)).
Proof.
  intros Hkey Hlen. induction 1 as [|k ks Hs IH Hall].
  - constructor.
  - rewrite fmap_cons.
    change (concat (f k :: (f <$> ks))) with (f k ++ concat (f <$> ks)).
    rewrite fmap_app.
    specialize (Hlen k). pose proof (Hkey k) as Hk.
    destruct (f k) as [|r [|r' g]]; simpl in Hlen; [exact IH| |lia].
    simpl. rewrite (Hk r) by left. constructor; [exact IH|].
    rewrite Forall_forall in Hall |- *. intros k' Hin. apply Hall.
    apply list_elem_of_fmap in Hin as (r' & -> & Hin).
    apply elem_of_concat in Hin as (g & Hg & Hr').
    apply list_elem_of_fmap in Hg as (k'' & -> & Hk'').
    rewrite (Hkey k'' r' Hr'). exact Hk''.
Qed.

Lemma sort_output_strict (df out : list ArrivalRow) :
  sort df = Ok out → StronglySorted key_lt (key <$> out).
Proof.
  intros Hs. destruct (decide (df = [])) as [->|Hne]; [discriminate|].
  rewrite sort_unfold in Hs by exact Hne. injection Hs as <-.
  apply (keys_concat_sorted
           (λ k, keep_group (filter (with_key k) (sort_values df)))).
  - intros k r Hr. apply keep_group_subseteq, list_elem_of_filter in Hr. tauto.
  - intros k. apply keep_group_length.
  - apply group_keys_strict.
Qed.

Lemma sort_values_sorted (df : list ArrivalRow) :
  StronglySorted key_lt (key <$> df) → sort_values df = df.
Proof.
  induction df as [|r df IH]; [reflexivity|].
  rewrite fmap_cons. intros [Hall Hs]%StronglySorted_cons.
  simpl. rewrite IH by exact Hs.
  destruct df as [|r' df]; [reflexivity|]. simpl.
  rewrite decide_True; [reflexivity|].
  rewrite fmap_cons in Hall. apply Forall_cons_1 in Hall as [[H _] _]. exact H.
Qed.

Lemma StronglySorted_strict_NoDup (ks : list (Z * Z)) :
  StronglySorted key_lt ks → NoDup ks.
Proof.
  induction 1 as [|k ks Hs IH Hall]; constructor; [|exact IH].
  intros Hin. rewrite Forall_forall in Hall.
  destruct (Hall k Hin) as [_ Hne]. congruence.
Qed.

Lemma StronglySorted_weaken (ks : list (Z * Z)) :
  StronglySorted key_lt ks → StronglySorted key_le ks.
Proof.
  induction 1 as [|k ks Hs IH Hall]; constructor; [exact IH|].
  eapply Forall_impl; [exact Hall|]. intros k' [H _]. exact H.
Qed.

Lemma remove_dups_NoDup {A} `{EqDecision A} (l : list A) :
  NoDup l → remove_dups l = l.
Proof.
  induction 1 as [|x l Hx Hnd IH]; simpl; [reflexivity|].
  destruct (decide_rel elem_of x l); [contradiction|]. rewrite IH. reflexivity.
Qed.

Lemma group_keys_sorted (df : list ArrivalRow) :
  StronglySorted key_lt (key <$> df) → group_keys df = key <$> df.
Proof.
  intros Hs. unfold group_keys.
  rewrite remove_dups_NoDup by (apply StronglySorted_strict_NoDup, Hs).
  apply (StronglySorted_unique key_le).
  - apply StronglySorted_merge_sort; apply _.
  - apply StronglySorted_weaken, Hs.
  - apply merge_sort_Permutation.
Qed.

Lemma filter_own_key (df : list ArrivalRow) :
  NoDup (key <$> df) →
  Forall (λ r, filter (with_key (key r)) df = [r]) df.
Proof.
  induction df as [|r df IH]; [constructor|].
  rewrite fmap_cons. intros [Hr Hnd]%NoDup_cons.
  constructor.
  - rewrite filter_cons_True by reflexivity. f_equal.
    apply filter_none. intros r' Hin E. apply Hr. rewrite <- E.
    apply list_elem_of_fmap_2, Hin.
  - eapply Forall_impl; [apply Forall_and; split; [apply IH, Hnd|]|].
    + apply Forall_forall. intros r' Hin. exact Hin.
    + simpl. intros r' [E Hin]. rewrite filter_cons_False; [exact E|].
      intros E'. apply Hr. rewrite E'. apply list_elem_of_fmap_2, Hin.
Qed.

Lemma concat_singletons {A} (l : list A) : concat ((λ x, [x]) <$> l) = l.
Proof.
  induction l as [|x l IH]; [reflexivity|].
  rewrite fmap_cons. simpl. f_equal. exact IH.
Qed.

(** A non-empty frame with strictly ascending keys is a fixed point. *)
Lemma sort_fixed (df : list ArrivalRow) :
  df ≠ [] → StronglySorted key_lt (key <$> df) → sort df = Ok df.
Proof.
  intros Hne Hs. rewrite sort_unfold by exact Hne.
  rewrite sort_values_sorted, group_keys_sorted by exact Hs.
  rewrite <- list_fmap_compose. f_equal.
  transitivity (concat ((λ r, [r]) <$> df)); [|apply concat_singletons].
  f_equal.
  apply Forall_fmap_ext_1.
  eapply Forall_impl;
    [apply filter_own_key, StronglySorted_strict_NoDup, Hs|].
  simpl. intros r ->. apply keep_group_singleton.
Qed.

Lemma median_is_Some (vs : list Q) : vs ≠ [] → is_Some (median vs).
Proof.
  intros Hne. unfold median.
  pose proof (Permutation_length (merge_sort_Permutation Qle vs)) as Hlen.
  set (s := merge_sort Qle vs) in *.
  assert (0 < length s)%nat as Hpos
    by (rewrite Hlen; destruct vs; [contradiction | simpl; lia]).
  destruct (Nat.even (length s)).
  - destruct (lookup_lt_is_Some_2 s (length s / 2 - 1)%nat) as [a ->];
      [apply Nat.le_lt_trans with (length s / 2)%nat;
         [lia | apply Nat.div_lt; lia]|].
    destruct (lookup_lt_is_Some_2 s (length s / 2)%nat) as [b ->];
      [apply Nat.div_lt; lia|].
    simpl. eauto.
  - apply lookup_lt_is_Some_2, Nat.div_lt; lia.
Qed.

Lemma sort_subseteq (df out : list ArrivalRow) (r : ArrivalRow) :
  sort df = Ok out → r ∈ out → r ∈ df.
Proof.
  intros Hs Hr.
  assert (r ∈ filter (with_key (key r)) out) as Hin
    by (apply list_elem_of_filter; tauto).
  rewrite (sort_group df out _ Hs) in Hin.
  apply keep_group_subseteq, list_elem_of_filter in Hin. tauto.
Qed.

Lemma sort_single_key (df : list ArrivalRow) (k : Z * Z) :
  df ≠ [] → (∀ r, r ∈ df → key r = k) → sort df = Ok (keep_group df).
Proof.
  intros Hne Hk. destruct (proj2 (sort_ok_iff df) Hne) as [out Hs].
  rewrite Hs. f_equal.
  transitivity (filter (with_key k) out).
  - symmetry. apply filter_all.
    intros r Hr. apply Hk. eapply sort_subseteq; eassumption.
  - rewrite (sort_group df out k Hs), (filter_all _ df) by exact Hk.
    reflexivity.
Qed.

Example sort_two_keys :
  sort [row_tt 7 9 5; row_tt 1 2 4; row_tt 7 9 5; row_tt 1 1 6]
  = Ok [row_tt 1 1 6; row_tt 1 2 4; row_tt 7 9 5].
Proof. vm_compute. reflexivity. Qed.

(** C1: [sort] succeeds on every non-empty frame; it groups the rows by
    [(source_block, station_block)] and, for each key of the input, keeps at
    most one row, a row of the group whose [observed_tt] equals the median of
    the group: exactly one row when some row of the group has that value, no
    row when none has.  So three rows of one key with travel times 1, 2 and 3
    give the row with 2, and two rows of one key with travel times 1 and 2
    give no row. *)
Theorem sort_keeps_median_row :
  (∀ df, df ≠ [] → ∃ out, sort df = Ok out)
  ∧ (∀ df out k,
       sort df = Ok out → k ∈ key <$> df →
       let group := filter (with_key k) df in
       let kept := filter (with_key k) out in
       ∃ med,
         median (observed_tt <$> group) = Some med
         ∧ (length kept ≤ 1)%nat
         ∧ (∀ r, r ∈ kept → r ∈ group ∧ (observed_tt r == med)%Q)
         ∧ ((∃ r, r ∈ group ∧ (observed_tt r == med)%Q) → length kept = 1%nat)
         ∧ ((∀ r, r ∈ group → ¬ (observed_tt r == med)%Q) → kept = []))
  ∧ (∀ r1 r2 r3,
       key r2 = key r1 → key r3 = key r1 →
       observed_tt r1 = 1%Q → observed_tt r2 = 2%Q → observed_tt r3 = 3%Q →
       sort [r1; r2; r3] = Ok [r2])
  ∧ (∀ r1 r2,
       key r2 = key r1 → observed_tt r1 = 1%Q → observed_tt r2 = 2%Q →
       sort [r1; r2] = Ok []).
Proof.
  split; [intros df; apply sort_ok_iff|]. split; [|split].
  - intros df out k Hs Hk group kept.
    assert (group ≠ []) as Hne.
    { apply list_elem_of_fmap in Hk as (r & -> & Hr). intros E.
      assert (r ∈ group) as Hin by (apply list_elem_of_filter; tauto).
      rewrite E in Hin. inversion Hin. }
    destruct (median_is_Some (observed_tt <$> group)) as [med Hmed].
    { destruct group; [contradiction | discriminate]. }
    exists med. split; [exact Hmed|].
    assert (kept = take 1 (filter (λ r, observed_tt r == med)%Q group)) as ->.
    { unfold kept. rewrite (sort_group df out k Hs).
      unfold keep_group. fold group. rewrite Hmed. reflexivity. }
    split; [rewrite length_take; lia|]. split; [|split].
    + intros r Hr. apply elem_of_take in Hr as (i & Hr & _).
      apply list_elem_of_lookup_2, list_elem_of_filter in Hr. tauto.
    + intros (r & Hr & Hm).
      assert (r ∈ filter (λ r, observed_tt r == med)%Q group) as Hin
        by (apply list_elem_of_filter; tauto).
      destruct (filter _ group); [inversion Hin | reflexivity].
    + intros Hno. rewrite filter_none; [reflexivity | exact Hno].
  - intros r1 r2 r3 H2 H3 T1 T2 T3.
    rewrite (sort_single_key _ (key r1)); [|discriminate|].
    + unfold keep_group. simpl. rewrite T1, T2, T3.
      change (median [1; 2; 3]%Q) with (Some 2%Q). cbv beta iota.
      rewrite !filter_cons, filter_nil, T1, T2, T3. reflexivity.
    + intros r Hr. repeat (apply elem_of_cons in Hr as [->|Hr]); try congruence.
      inversion Hr.
  - intros r1 r2 H2 T1 T2.
    rewrite (sort_single_key _ (key r1)); [|discriminate|].
    + unfold keep_group. simpl. rewrite T1, T2.
      change (median [1; 2]%Q) with (Some ((1 + 2) / 2)%Q). cbv beta iota.
      rewrite !filter_cons, filter_nil, T1, T2. reflexivity.
    + intros r Hr. repeat (apply elem_of_cons in Hr as [->|Hr]); try congruence.
      inversion Hr.
Qed.

Lemma sort_keeps_median_row_witness :
  ∃ med,
    median (observed_tt <$> filter (with_key (7, 9))
              [row_tt 7 9 3; row_tt 1 2 4; row_tt 7 9 1; row_tt 7 9 2])
    = Some med
    ∧ filter (with_key (7, 9)) [row_tt 1 2 4; row_tt 7 9 2] = [row_tt 7 9 2].
Proof.
  destruct (proj1 (proj2 sort_keeps_median_row)
              [row_tt 7 9 3; row_tt 1 2 4; row_tt 7 9 1; row_tt 7 9 2]
              [row_tt 1 2 4; row_tt 7 9 2] (7, 9))
    as (med & Hmed & _).
  - vm_compute. reflexivity.
  - vm_compute. apply list_elem_of_here.
  - exists med. split; [exact Hmed | vm_compute; reflexivity].
Defined.

(** C8: when the row at position [i] of the input has the median travel time
    of its group and no earlier input row of the same key has it, that row is
    the one [sort] keeps for the key, whatever rows of the group follow it;
    the key sort before the grouping leaves the rows of one key in their
    input order. *)
Theorem sort_keeps_first_median_row (df out : list ArrivalRow) (i : nat)
    (r : ArrivalRow) (med : Q) :
  sort df = Ok out →
  df !! i = Some r →
  median (observed_tt <$> filter (with_key (key r)) df) = Some med →
  (observed_tt r == med)%Q →
  (∀ j r', (j < i)%nat → df !! j = Some r' → key r' = key r →
           ¬ (observed_tt r' == med)%Q) →
  filter (with_key (key r)) out = [r]
  ∧ filter (with_key (key r)) (sort_values df) = filter (with_key (key r)) df.
Proof.
  intros Hs Hi Hmed Hr Hfirst. split; [|apply filter_sort_values].
  rewrite (sort_group df out _ Hs). unfold keep_group. rewrite Hmed.
  rewrite <- (take_drop_middle df i r Hi), filter_app, filter_cons_True
    by reflexivity.
  rewrite filter_app, filter_cons_True by exact Hr.
  rewrite filter_none; [reflexivity|].
  intros r' Hin Hm. apply list_elem_of_filter in Hin as [Hk Hin].
  apply list_elem_of_lookup in Hin as [j Hj].
  pose proof (lookup_lt_Some _ _ _ Hj) as Hlt.
  rewrite lookup_take_lt in Hj by (rewrite length_take in Hlt; lia).
  rewrite length_take in Hlt.
  exact (Hfirst j r' ltac:(lia) Hj Hk Hm).
Qed.

Lemma sort_keeps_first_median_row_witness :
  filter (with_key (7, 9)) [row_ev 1 1 101 6; row_ev 7 9 102 5]
  = [row_ev 7 9 102 5]
  ∧ filter (with_key (7, 9))
      (sort_values [row_ev 7 9 100 4; row_ev 1 1 101 6; row_ev 7 9 102 5;
                    row_ev 7 9 103 5; row_ev 7 9 104 6])
    = filter (with_key (7, 9))
        [row_ev 7 9 100 4; row_ev 1 1 101 6; row_ev 7 9 102 5;
         row_ev 7 9 103 5; row_ev 7 9 104 6].
Proof.
  apply (sort_keeps_first_median_row
           [row_ev 7 9 100 4; row_ev 1 1 101 6; row_ev 7 9 102 5;
            row_ev 7 9 103 5; row_ev 7 9 104 6]
           [row_ev 1 1 101 6; row_ev 7 9 102 5]
           2 (row_ev 7 9 102 5) (10 # 2)).
  - vm_compute. reflexivity.
  - reflexivity.
  - vm_compute. reflexivity.
  - reflexivity.
  - intros [|[|j]] r' Hj Hr' Hk; [| |lia]; injection Hr' as <-.
    + vm_compute. discriminate.
    + discriminate Hk.
Defined.

(** C10: on the empty frame [sort] does not return the empty frame: there is
    no group, so [pd.concat] is given no frame and raises, and [sort] raises
    with it; the empty frame is the only input on which [sort] raises. *)
Theorem sort_empty_raises :
  groupby (sort_values []) = []
  ∧ pd_concat (A := ArrivalRow) [] = Raise ValueError
  ∧ sort [] = Raise ValueError
  ∧ sort [] ≠ Ok []
  ∧ ∀ df e, sort df = Raise e ↔ df = [] ∧ e = ValueError.
Proof.
  split; [reflexivity|]. split; [reflexivity|]. split; [reflexivity|].
  split; [discriminate|]. intros df e. split.
  - intros Hs. destruct df as [|r df].
    + injection Hs as <-. split; reflexivity.
    + rewrite sort_unfold in Hs by discriminate. discriminate.
  - intros [-> ->]. reflexivity.
Qed.

(** C4 (as stated): two rows of one key with travel times 1 and 2 are reduced
    to the empty frame, on which a second [sort] raises. *)
Lemma sort_twice_raises :
  sort [row_tt 7 9 1; row_tt 7 9 2] = Ok []
  ∧ (sort [row_tt 7 9 1; row_tt 7 9 2] ≫= sort) = Raise ValueError
  ∧ (sort [row_tt 7 9 1; row_tt 7 9 2] ≫= sort)
    ≠ sort [row_tt 7 9 1; row_tt 7 9 2].
Proof. vm_compute. repeat split; discriminate. Qed.

(** C4 (amended): whenever [sort] returns a non-empty frame, [sort] applied
    to that frame returns it unchanged, so [sort] twice equals [sort] once. *)
Theorem sort_idempotent (df out : list ArrivalRow) :
  sort df = Ok out → out ≠ [] →
  sort out = Ok out ∧ (sort df ≫= sort) = sort df.
Proof.
  intros Hs Hne.
  assert (sort out = Ok out) as H
    by (apply sort_fixed; [exact Hne | eapply sort_output_strict, Hs]).
  split; [exact H|]. rewrite Hs. exact H.
Qed.

Lemma sort_idempotent_witness :
  sort [row_tt 7 9 2] = Ok [row_tt 7 9 2]
  ∧ (sort [row_tt 7 9 3; row_tt 7 9 1; row_tt 7 9 2] ≫= sort)
    = sort [row_tt 7 9 3; row_tt 7 9 1; row_tt 7 9 2].
Proof.
  apply (sort_idempotent [row_tt 7 9 3; row_tt 7 9 1; row_tt 7 9 2]).
  - vm_compute. reflexivity.
  - discriminate.
Defined.

(** ** PhaseMatcher *)

Lemma filter_eq_NoDup {A} `{EqDecision A} (k : A) (l : list A) :
  NoDup l → filter (λ b, id b = k) l = if decide (k ∈ l) then [k] else [].
Proof.
  induction 1 as [|x l Hx Hnd IH]; [reflexivity|].
  rewrite filter_cons, IH. unfold id.
  destruct (decide (x = k)) as [->|Hne].
  - rewrite (decide_False (P := k ∈ l)) by exact Hx.
    rewrite (decide_True (P := k ∈ k :: l)) by left. reflexivity.
  - destruct (decide (k ∈ l)) as [Hin|Hnin].
    + rewrite (decide_True (P := k ∈ x :: l)) by (right; exact Hin).
      reflexivity.
    + rewrite (decide_False (P := k ∈ x :: l)); [reflexivity|].
      intros [?|?]%elem_of_cons; congruence.
Qed.

Lemma bind_filter {A} (P : A → Prop) `{∀ x, Decision (P x)}
    (f : A → list A) (l : list A) :
  (∀ a, a ∈ l → f a = if decide (P a) then [a] else []) →
  l ≫= f = filter P l.
Proof.
  induction l as [|a l IH]; intros Hf; [reflexivity|].
  rewrite bind_cons, filter_cons, (Hf a) by left.
  rewrite IH by (intros b Hb; apply Hf; right; exact Hb).
  destruct (decide (P a)); reflexivity.
Qed.

(** The key frame [blocks] of [match]. *)
Lemma blocks_filter (ks1 ks2 : list (Z * Z)) :
  NoDup ks2 →
  pd_merge id id (λ k _, k) ks1 ks2 = filter (λ k, k ∈ ks2) ks1.
Proof.
  intros Hnd. unfold pd_merge. apply bind_filter. intros k _.
  rewrite (filter_eq_NoDup (id k)) by exact Hnd. unfold id.
  destruct (decide (k ∈ ks2)); reflexivity.
Qed.

Lemma merge_blocks_filter (df : list ArrivalRow) (blocks : list (Z * Z)) :
  NoDup blocks →
  pd_merge key id (λ r _, r) df blocks = filter (λ r, key r ∈ blocks) df.
Proof.
  intros Hnd. unfold pd_merge. apply bind_filter. intros r _.
  rewrite (filter_eq_NoDup (key r)) by exact Hnd.
  destruct (decide (key r ∈ blocks)); reflexivity.
Qed.

Lemma filter_ext_in {A} (P1 P2 : A → Prop) `{∀ x, Decision (P1 x)}
    `{∀ x, Decision (P2 x)} (l : list A) :
  (∀ x, x ∈ l → P1 x ↔ P2 x) → filter P1 l = filter P2 l.
Proof.
  induction l as [|x l IH]; intros HPQ; [reflexivity|].
  rewrite !filter_cons, IH by (intros y Hy; apply HPQ; right; exact Hy).
  pose proof (HPQ x ltac:(left)) as Hx.
  destruct (decide (P1 x)), (decide (P2 x)); try reflexivity; tauto.
Qed.

Lemma match_filter (p_arr s_arr : list ArrivalRow) :
  NoDup (key <$> p_arr) → NoDup (key <$> s_arr) →
  match_ p_arr s_arr
  = (filter (λ r, key r ∈ key <$> s_arr) p_arr,
     filter (λ r, key r ∈ key <$> p_arr) s_arr).
Proof.
  intros Hp Hs. unfold match_.
  rewrite blocks_filter by exact Hs.
  assert (NoDup (filter (λ k, k ∈ key <$> s_arr) (key <$> p_arr))) as Hnd
    by (apply NoDup_filter, Hp).
  rewrite !merge_blocks_filter by exact Hnd. f_equal.
  - apply filter_ext_in. intros r Hr. rewrite list_elem_of_filter.
    split; [tauto|]. intros H. split; [exact H|].
    apply list_elem_of_fmap_2, Hr.
  - apply filter_ext_in. intros r Hr. rewrite list_elem_of_filter.
    split; [tauto|]. intros H. split; [|exact H].
    apply list_elem_of_fmap_2, Hr.
Qed.

(** C2: for frames [A] and [B] without repeated keys, [match] returns the
    rows of [A] whose key occurs in [B] and the rows of [B] whose key occurs
    in [A], each row as it was and in the order of its frame; so a row is
    returned exactly when it is an input row whose key is in both frames,
    neither output is longer than its input, and for P keys (1,1), (1,2) and
    S keys (1,2), (2,2) each output is the single row of key (1,2). *)
Theorem match_key_intersection :
  (∀ A B A' B',
     NoDup (key <$> A) → NoDup (key <$> B) → match_ A B = (A', B') →
     A' = filter (λ r, key r ∈ key <$> B) A
     ∧ B' = filter (λ r, key r ∈ key <$> A) B
     ∧ (∀ r, r ∈ A' ↔ r ∈ A ∧ key r ∈ key <$> A ∧ key r ∈ key <$> B)
     ∧ (∀ r, r ∈ B' ↔ r ∈ B ∧ key r ∈ key <$> A ∧ key r ∈ key <$> B)
     ∧ (length A' ≤ length A)%nat ∧ (length B' ≤ length B)%nat)
  ∧ (∀ p1 p2 s1 s2,
       key p1 = (1, 1) → key p2 = (1, 2) → key s1 = (1, 2) → key s2 = (2, 2) →
       match_ [p1; p2] [s1; s2] = ([p2], [s1])).
Proof.
  split.
  - intros A B A' B' HA HB Hm. rewrite match_filter in Hm by assumption.
    injection Hm as <- <-. split; [reflexivity|]. split; [reflexivity|].
    split; [|split; [|split; apply length_filter]].
    + intros r. rewrite list_elem_of_filter. split; [|tauto].
      intros [Hk Hr]. split; [exact Hr|]. split; [|exact Hk].
      apply list_elem_of_fmap_2, Hr.
    + intros r. rewrite list_elem_of_filter. split; [|tauto].
      intros [Hk Hr]. split; [exact Hr|]. split; [exact Hk|].
      apply list_elem_of_fmap_2, Hr.
  - intros p1 p2 s1 s2 H1 H2 H3 H4. unfold match_, pd_merge. simpl.
    rewrite H1, H2, H3, H4. reflexivity.
Qed.

Lemma match_key_intersection_witness :
  [row_tt 1 2 6] = filter (λ r, key r ∈ key <$> [row_tt 1 2 7; row_tt 2 2 8])
                     [row_tt 1 1 5; row_tt 1 2 6]
  ∧ [row_tt 1 2 7] = filter (λ r, key r ∈ key <$> [row_tt 1 1 5; row_tt 1 2 6])
                       [row_tt 1 2 7; row_tt 2 2 8].
Proof.
  destruct (proj1 match_key_intersection
              [row_tt 1 1 5; row_tt 1 2 6] [row_tt 1 2 7; row_tt 2 2 8]
              [row_tt 1 2 6] [row_tt 1 2 7]) as (HA & HB & _).
  - apply (bool_decide_unpack _). vm_compute. reflexivity.
  - apply (bool_decide_unpack _). vm_compute. reflexivity.
  - vm_compute. reflexivity.
  - split; [exact HA | exact HB].
Defined.

(** ** ArrivalExtractor and EventBatchProcessor *)

(** *** The writers and the loops *)

Lemma extends_refl (Pp Ps : ArrivalRow → Prop) (w w' : writers) :
  p_rows w' = p_rows w → s_rows w' = s_rows w → extends Pp Ps w w'.
Proof.
  intros Hp Hs. exists [], []. rewrite !app_nil_r. repeat split; auto.
Qed.

Lemma extends_trans (Pp Ps : ArrivalRow → Prop) (w1 w2 w3 : writers) :
  extends Pp Ps w1 w2 → extends Pp Ps w2 w3 → extends Pp Ps w1 w3.
Proof.
  intros (p1 & s1 & Hp1 & Hs1 & HP1 & HS1) (p2 & s2 & Hp2 & Hs2 & HP2 & HS2).
  exists (p1 ++ p2), (s1 ++ s2).
  rewrite Hp2, Hs2, Hp1, Hs1, !app_assoc.
  repeat split; try reflexivity; apply Forall_app; split; assumption.
Qed.

Lemma extends_impl (Pp Ps Pp' Ps' : ArrivalRow → Prop) (w w' : writers) :
  (∀ r, Pp r → Pp' r) → (∀ r, Ps r → Ps' r) →
  extends Pp Ps w w' → extends Pp' Ps' w w'.
Proof.
  intros HP HS (p & s & Hp & Hs & HPp & HPs). exists p, s.
  repeat split; try assumption; eapply Forall_impl; eassumption.
Qed.

Lemma for_each_extends {A} (Pp Ps : ArrivalRow → Prop) (body : A → io unit)
    (xs : list A) :
  (∀ x w res w', x ∈ xs → body x w = (res, w') → extends Pp Ps w w') →
  ∀ w res w', for_each body xs w = (res, w') → extends Pp Ps w w'.
Proof.
  induction xs as [|x xs IH]; intros Hbody w res w' Hrun.
  - injection Hrun as _ <-. apply extends_refl; reflexivity.
  - simpl in Hrun. unfold io_bind in Hrun.
    destruct (body x w) as [[[]|e] w1] eqn:Hx.
    + eapply extends_trans.
      * eapply Hbody; [left | exact Hx].
      * eapply IH; [|exact Hrun].
        intros y w2 res2 w3 Hy. apply Hbody. right. exact Hy.
    + injection Hrun as _ <-. eapply Hbody; [left | exact Hx].
Qed.

(** A raising iteration ends the loop: later items are not visited. *)
Lemma for_each_raise {A} (body : A → io unit) (pre post : list A) (x : A)
    (w w1 w2 : writers) (e : exn) :
  for_each body pre w = (Ok (), w1) →
  body x w1 = (Raise e, w2) →
  for_each body (pre ++ x :: post) w = (Raise e, w2).
Proof.
  revert w. induction pre as [|y pre IH]; intros w Hpre Hx; simpl in *.
  - injection Hpre as <-. unfold io_bind. rewrite Hx. reflexivity.
  - unfold io_bind in *. destruct (body y w) as [[[]|e'] w'].
    + apply IH; assumption.
    + discriminate.
Qed.

(** In a loop that ends without exception every item had its turn, and what
    was written before and during that turn is still there at the end. *)
Lemma for_each_visit {A} (Pp Ps : ArrivalRow → Prop) (body : A → io unit)
    (xs : list A) :
  (∀ x w res w', x ∈ xs → body x w = (res, w') → extends Pp Ps w w') →
  ∀ x w w', for_each body xs w = (Ok (), w') → x ∈ xs →
    ∃ w1 w2, body x w1 = (Ok (), w2)
             ∧ extends Pp Ps w w1 ∧ extends Pp Ps w2 w'.
Proof.
  induction xs as [|y xs IH]; intros Hbody x w w' Hrun Hx; [inversion Hx|].
  simpl in Hrun. unfold io_bind in Hrun.
  destruct (body y w) as [[[]|e] wy] eqn:Hy; [|discriminate].
  assert (∀ z w res w', z ∈ xs → body z w = (res, w') → extends Pp Ps w w')
    as Hbody' by (intros z w0 res0 w0' Hz; apply Hbody; right; exact Hz).
  apply elem_of_cons in Hx as [->|Hx].
  - exists w, wy. split; [exact Hy|]. split.
    + apply extends_refl; reflexivity.
    + eapply for_each_extends; [exact Hbody' | exact Hrun].
  - destruct (IH Hbody' x wy w' Hrun Hx) as (w1 & w2 & Hb & H1 & H2).
    exists w1, w2. split; [exact Hb|]. split; [|exact H2].
    eapply extends_trans; [|exact H1]. eapply Hbody; [left | exact Hy].
Qed.

(** Unfolding of the three functions of the gather stage down to the state
    passing. *)
Tactic Notation "unfold_arrival" :=
  unfold process_arrival, io_bind, lift.
Tactic Notation "unfold_arrival" "in" hyp(H) :=
  unfold process_arrival, io_bind, lift in H.
Tactic Notation "unfold_event" :=
  unfold process_event, io_bind, lift.
Tactic Notation "unfold_event" "in" hyp(H) :=
  unfold process_event, io_bind, lift in H.
Tactic Notation "unfold_batch" :=
  unfold process_many_events, io_bind, lift.
Tactic Notation "unfold_batch" "in" hyp(H) :=
  unfold process_many_events, io_bind, lift in H.

Section GatherFacts.

Context (mode : Py.rounding) (geodetic_degrees : Q → Q → Q → Q → Q).
Context (stations : gmap string Station.t) (nx ny : Z) (dz : Q).

Local Abbreviation process_arrival :=
  (process_arrival mode geodetic_degrees stations nx ny dz).
Local Abbreviation process_event :=
  (process_event mode geodetic_degrees stations nx ny dz).
Local Abbreviation process_many_events :=
  (process_many_events mode geodetic_degrees stations nx ny dz).
Local Abbreviation created := (created mode geodetic_degrees stations nx ny dz).

Lemma block_id_steps (dx dy lat lon z : Q) :
  Py.div 360 (inject_Z nx) = Ok dx → Py.div 180 (inject_Z ny) = Ok dy →
  block_id mode nx ny dz lat lon z = _find_block mode dx dy dz nx ny lat lon z.
Proof.
  intros Hx Hy. unfold block_id, grid_steps. rewrite Hx. simpl.
  rewrite Hy. reflexivity.
Qed.

(** What one turn of the loop over the arrivals does. *)
Lemma process_arrival_extends (event : Event.t) (wave_type p_type s_type : string)
    (timestamp : Q) (origin : Origin.t) (dx dy : Q) (event_block : Z)
    (arr : Arrival.t) (w w' : writers) (res : result unit) :
  Py.split wave_type = [p_type; s_type] →
  Event.creation_time event = Some timestamp →
  Event.preferred_origin event = Some origin →
  Py.div 360 (inject_Z nx) = Ok dx → Py.div 180 (inject_Z ny) = Ok dy →
  _find_block mode dx dy dz nx ny (Origin.latitude origin)
    (Origin.longitude origin) (Origin.depth origin) = Ok event_block →
  arr ∈ Origin.arrivals origin →
  process_arrival wave_type p_type s_type (Py.int (timestamp * 1000000)%Q)
    origin dx dy event_block arr w = (res, w') →
  extends (created event wave_type 1) (created event wave_type 2) w w'.
Proof.
  intros Hsplit Hct Hor Hdx Hdy Heb Harr Hrun.
  unfold_arrival in Hrun.
  destruct (Arrival.pick_id arr) as [pick|] eqn:Hpick; simpl in Hrun;
    [|injection Hrun as _ <-; apply extends_refl; reflexivity].
  destruct (stations !! Pick.station_code pick) as [sta|] eqn:Hsta;
    [|injection Hrun as _ <-; apply extends_refl; reflexivity].
  destruct (decide (90 < _)%Q) as [Hfar|Hnear];
    [injection Hrun as _ <-; apply extends_refl; reflexivity|].
  destruct (_find_block mode dx dy dz nx ny (Station.latitude sta) _ 0)
    as [station_block|e] eqn:Hsb;
    [|injection Hrun as _ <-; apply extends_refl; reflexivity].
  destruct (decide (Arrival.phase arr ∈ Py.split wave_type)) as [Hin|Hout];
    [|injection Hrun as _ <-; apply extends_refl; reflexivity].
  rewrite Hsplit in Hin.
  rewrite <- (block_id_steps dx dy _ _ _ Hdx Hdy) in Heb.
  rewrite <- (block_id_steps dx dy _ _ _ Hdx Hdy) in Hsb.
  destruct (decide (Arrival.phase arr = p_type)) as [Hp|Hp];
    injection Hrun as _ <-.
  - eexists [_], []. simpl. rewrite app_nil_r.
    repeat split; [|constructor]. repeat constructor.
    eapply created_row; eauto.
  - eexists [], [_]. simpl. rewrite app_nil_r.
    repeat split; [constructor|]. repeat constructor.
    eapply created_row; eauto. right. repeat split; [exact Hp|].
    apply elem_of_cons in Hin as [?|Hin]; [contradiction|].
    apply elem_of_cons in Hin as [?|Hin]; [assumption|inversion Hin].
Qed.

Lemma process_event_extends (event : Event.t) (wave_type : string)
    (w w' : writers) (res : result unit) :
  process_event event wave_type w = (res, w') →
  extends (created event wave_type 1) (created event wave_type 2) w w'.
Proof.
  intros Hrun. unfold_event in Hrun.
  destruct (Py.split wave_type) as [|p_type [|s_type [|]]] eqn:Hsplit;
    simpl in Hrun;
    try (injection Hrun as _ <-; apply extends_refl; reflexivity).
  destruct (Event.creation_time event) as [timestamp|] eqn:Hct; simpl in Hrun;
    [|injection Hrun as _ <-; apply extends_refl; reflexivity].
  destruct (Event.preferred_origin event) as [origin|] eqn:Hor; simpl in Hrun;
    [|injection Hrun as _ <-; apply extends_refl; reflexivity].
  destruct (Py.div 360 (inject_Z nx)) as [dx|] eqn:Hdx;
    [|injection Hrun as _ <-; apply extends_refl; reflexivity].
  destruct (Py.div 180 (inject_Z ny)) as [dy|] eqn:Hdy;
    [|injection Hrun as _ <-; apply extends_refl; reflexivity].
  destruct (_find_block mode dx dy dz nx ny _ _ _) as [event_block|] eqn:Heb;
    [|injection Hrun as _ <-; apply extends_refl; reflexivity].
  eapply for_each_extends; [|exact Hrun].
  intros arr w1 res1 w2 Harr Hbody.
  eapply process_arrival_extends; eauto.
Qed.

Lemma process_many_events_extends (events : list Event.t) (wave_type : string)
    (w w' : writers) (res : result unit) :
  process_many_events events wave_type w = (res, w') →
  extends (λ r, ∃ e, e ∈ events ∧ created e wave_type 1 r)
          (λ r, ∃ e, e ∈ events ∧ created e wave_type 2 r) w w'.
Proof.
  intros Hrun. unfold_batch in Hrun.
  destruct (Py.unpack2 (Py.split wave_type)) as [[p s]|];
    [|injection Hrun as _ <-; apply extends_refl; reflexivity].
  eapply for_each_extends; [|exact Hrun].
  intros e w1 res1 w2 He Hbody. simpl in Hbody. unfold io_bind in Hbody.
  destruct (process_event e wave_type w1) as [[[]|x] w1'] eqn:Hev.
  - injection Hbody as _ <-.
    apply (extends_trans _ _ w1 w1'); [|apply extends_refl; reflexivity].
    eapply extends_impl; [| |eapply process_event_extends, Hev]; eauto.
  - injection Hbody as _ <-.
    eapply extends_impl; [| |eapply process_event_extends, Hev]; eauto.
Qed.


Lemma created_inv (event : Event.t) (wave_type : string) (code : Z)
    (r : ArrivalRow) :
  created event wave_type code r →
  ∃ p_type s_type origin arr pick sta,
    Py.split wave_type = [p_type; s_type]
    ∧ Event.preferred_origin event = Some origin
    ∧ arr ∈ Origin.arrivals origin
    ∧ Arrival.pick_id arr = Some pick
    ∧ stations !! Pick.station_code pick = Some sta
    ∧ block_id mode nx ny dz (Origin.latitude origin)
        (Origin.longitude origin) (Origin.depth origin) = Ok (source_block r)
    ∧ block_id mode nx ny dz (Station.latitude sta) (Station.longitude sta) 0
      = Ok (station_block r)
    ∧ (locations2degrees r <= 90)%Q
    ∧ P_or_S r = code
    ∧ ((Arrival.phase arr = p_type ∧ code = 1)
       ∨ (Arrival.phase arr ≠ p_type ∧ Arrival.phase arr = s_type ∧ code = 2)).
Proof.
  intros [p_type s_type timestamp origin arr pick sta eb sb c
            Hsplit Hct Hor Harr Hpick Hsta Heb Hsb Hd Hcode].
  exists p_type, s_type, origin, arr, pick, sta. simpl.
  repeat split; try assumption. lra.
Qed.

Lemma process_many_events_rows (events : list Event.t) (wave_type : string)
    (res : result unit) (w' : writers) :
  process_many_events events wave_type no_output = (res, w') →
  Forall (λ r, ∃ e, e ∈ events ∧ created e wave_type 1 r) (p_rows w')
  ∧ Forall (λ r, ∃ e, e ∈ events ∧ created e wave_type 2 r) (s_rows w').
Proof.
  intros Hrun. apply process_many_events_extends in Hrun.
  destruct Hrun as (newp & news & -> & -> & Hp & Hs). split; assumption.
Qed.

(** A turn of the loop that ends without exception for an arrival of a known
    station, not beyond 90 degrees and with a phase of the pair, has written
    the row of that arrival. *)
Lemma process_arrival_writes (wave_type p_type s_type : string)
    (ev_number : Z) (origin : Origin.t) (dx dy : Q) (event_block : Z)
    (arr : Arrival.t) (pick : Pick.t) (sta : Station.t) (w w' : writers) :
  process_arrival wave_type p_type s_type ev_number origin dx dy event_block
    arr w = (Ok (), w') →
  Arrival.pick_id arr = Some pick →
  stations !! Pick.station_code pick = Some sta →
  Arrival.phase arr ∈ Py.split wave_type →
  ¬ (90 < geodetic_degrees (Origin.latitude origin) (Origin.longitude origin)
            (Station.latitude sta) (Station.longitude sta))%Q →
  ∃ r,
    ((p_rows w' = p_rows w ++ [r] ∧ s_rows w' = s_rows w)
     ∨ (p_rows w' = p_rows w ∧ s_rows w' = s_rows w ++ [r]))
    ∧ locations2degrees r
      = geodetic_degrees (Origin.latitude origin) (Origin.longitude origin)
          (Station.latitude sta) (Station.longitude sta)
    ∧ residual r = Arrival.time_residual arr
    ∧ observed_tt r = (Pick.time pick - Origin.time origin)%Q
    ∧ station_latitude r = Station.latitude sta
    ∧ station_longitude r = Station.longitude sta.
Proof.
  intros Hrun Hpick Hsta Hphase Hd. unfold_arrival in Hrun.
  rewrite Hpick in Hrun. simpl in Hrun. rewrite Hsta in Hrun.
  rewrite decide_False in Hrun by exact Hd.
  destruct (_find_block mode dx dy dz nx ny _ _ 0) as [station_block|];
    [|discriminate].
  rewrite decide_True in Hrun by exact Hphase.
  destruct (decide (Arrival.phase arr = p_type));
    injection Hrun as <-; eexists;
    (split; [first [left; split; reflexivity | right; split; reflexivity]|]);
    repeat split; reflexivity.
Qed.

(** The sample event: one row per file, the unknown station and the far
    station logged, the phase [Pn] passed over. *)
Example sample_gather_rows :
  sample_gather [sample_event] "P S"
  = (Ok (),
     mkWriters
       [mkRow 41817641 864041 (Some (1 # 2)%Q) 1500000 10 30 1000 10 (-60)
          (1010 - 1000) (Qabs (30 - -60)) 1]
       [mkRow 41817641 345641 (Some (1 # 3)%Q) 1500000 10 30 1000 10 30
          (1020 - 1000) (Qabs (30 - 30)) 2]
       [Warning_station_not_found "CCC";
        Info_ignored_distance (Qabs (30 - (-6001 # 100)));
        Debug_processed_event "ev1"]).
Proof. vm_compute. reflexivity. Qed.

(** C7: when an event is processed without exception, every arrival of its
    origin at exactly 90 degrees from it (the station being in the inventory
    and the phase one of the pair) has its row among the rows written; a turn
    of the loop for an arrival beyond 90 degrees writes no row; and every row
    that a batch writes has [locations2degrees <= 90]. *)
Theorem distance_gate :
  (∀ event wave_type origin arr pick sta w w',
     process_event event wave_type w = (Ok (), w') →
     Event.preferred_origin event = Some origin →
     arr ∈ Origin.arrivals origin →
     Arrival.pick_id arr = Some pick →
     stations !! Pick.station_code pick = Some sta →
     Arrival.phase arr ∈ Py.split wave_type →
     (geodetic_degrees (Origin.latitude origin) (Origin.longitude origin)
        (Station.latitude sta) (Station.longitude sta) == 90)%Q →
     ∃ r newp news,
       p_rows w' = p_rows w ++ newp ∧ s_rows w' = s_rows w ++ news
       ∧ (r ∈ newp ∨ r ∈ news)
       ∧ (locations2degrees r == 90)%Q
       ∧ residual r = Arrival.time_residual arr
       ∧ observed_tt r = (Pick.time pick - Origin.time origin)%Q
       ∧ station_latitude r = Station.latitude sta
       ∧ station_longitude r = Station.longitude sta)
  ∧ (∀ wave_type p_type s_type ev_number origin dx dy event_block arr pick
       sta w,
       Arrival.pick_id arr = Some pick →
       stations !! Pick.station_code pick = Some sta →
       (90 < geodetic_degrees (Origin.latitude origin)
               (Origin.longitude origin)
               (Station.latitude sta) (Station.longitude sta))%Q →
       ∃ w',
         process_arrival wave_type p_type s_type ev_number origin dx dy
           event_block arr w = (Ok (), w')
         ∧ p_rows w' = p_rows w ∧ s_rows w' = s_rows w)
  ∧ (∀ events wave_type res w' r,
       process_many_events events wave_type no_output = (res, w') →
       r ∈ p_rows w' ∨ r ∈ s_rows w' →
       (locations2degrees r <= 90)%Q).
Proof.
  split; [|split].
  - intros event wave_type origin arr pick sta w w' Hrun Hor Harr Hpick Hsta
      Hphase Hd.
    unfold_event in Hrun.
    destruct (Py.split wave_type) as [|p_type [|s_type [|]]] eqn:Hsplit;
      simpl in Hrun; try discriminate.
    destruct (Event.creation_time event) as [timestamp|] eqn:Hct;
      simpl in Hrun; [|discriminate].
    rewrite Hor in Hrun. simpl in Hrun.
    destruct (Py.div 360 (inject_Z nx)) as [dx|] eqn:Hdx; [|discriminate].
    destruct (Py.div 180 (inject_Z ny)) as [dy|] eqn:Hdy; [|discriminate].
    destruct (_find_block mode dx dy dz nx ny _ _ _) as [event_block|] eqn:Heb;
      [|discriminate].
    destruct (for_each_visit (created event wave_type 1)
                (created event wave_type 2) _ _
                (λ x w0 res w0' Hx,
                   process_arrival_extends event wave_type p_type s_type
                     timestamp origin dx dy event_block x w0 w0' res
                     Hsplit Hct Hor Hdx Hdy Heb Hx)
                arr w w' Hrun Harr)
      as (w1 & w2 & Hbody & (np1 & ns1 & Hp1 & Hs1 & _) 
          & (np2 & ns2 & Hp2 & Hs2 & _)).
    destruct (process_arrival_writes wave_type p_type s_type _ origin dx dy
                event_block arr pick sta w1 w2 Hbody Hpick Hsta)
      as (r & Hw & Hdist & Hres & Htt & Hlat & Hlon).
    { rewrite Hsplit. exact Hphase. }
    { lra. }
    exists r.
    destruct Hw as [[Hp Hs]|[Hp Hs]].
    + exists (np1 ++ [r] ++ np2), (ns1 ++ ns2).
      rewrite Hp2, Hs2, Hp, Hs, Hp1, Hs1, <- !app_assoc.
      repeat split; try assumption; try reflexivity.
      * left. apply elem_of_app. right. left.
      * rewrite Hdist. exact Hd.
    + exists (np1 ++ np2), (ns1 ++ [r] ++ ns2).
      rewrite Hp2, Hs2, Hp, Hs, Hp1, Hs1, <- !app_assoc.
      repeat split; try assumption; try reflexivity.
      * right. apply elem_of_app. right. left.
      * rewrite Hdist. exact Hd.
  - intros wave_type p_type s_type ev_number origin dx dy event_block arr pick
      sta w Hpick Hsta Hd.
    unfold_arrival.
    rewrite Hpick. simpl. rewrite Hsta.
    rewrite decide_True by exact Hd.
    eexists. split; [reflexivity|]. split; reflexivity.
  - intros events wave_type res w' r Hrun Hr.
    apply process_many_events_rows in Hrun as [Hp Hs].
    rewrite Forall_forall in Hp, Hs.
    destruct Hr as [Hr|Hr]; [apply Hp in Hr | apply Hs in Hr];
      destruct Hr as (e & _ & Hc); apply created_inv in Hc;
      destruct Hc as (? & ? & ? & ? & ? & ? & _ & _ & _ & _ & _ & _ & _ & Hd & _);
      exact Hd.
Qed.

(** C9 (amended): every row that a batch writes comes from an arrival of the
    preferred origin of one of its events whose station is in the inventory;
    a row of the first file has [P_or_S = 1] and the phase of its arrival is
    the first wave type, a row of the second file has [P_or_S = 2] and the
    phase is the second wave type and not the first, so no other phase gives a
    row; [source_block] and [station_block] are the integers that BlockIndexer
    returns for the origin and for the station at depth 0, and they are at
    least 1 when the grid is positive, the latitude at most 90, the longitude
    above -360 and the depth not negative. *)
Theorem rows_phase_code_and_blocks (events : list Event.t)
    (wave_type : string) (res : result unit) (w' : writers) (r : ArrivalRow) :
  process_many_events events wave_type no_output = (res, w') →
  r ∈ p_rows w' ∨ r ∈ s_rows w' →
  ∃ p_type s_type event origin arr pick sta,
    Py.split wave_type = [p_type; s_type]
    ∧ event ∈ events
    ∧ Event.preferred_origin event = Some origin
    ∧ arr ∈ Origin.arrivals origin
    ∧ Arrival.pick_id arr = Some pick
    ∧ stations !! Pick.station_code pick = Some sta
    ∧ ((r ∈ p_rows w' ∧ Arrival.phase arr = p_type ∧ P_or_S r = 1)
       ∨ (r ∈ s_rows w' ∧ Arrival.phase arr = s_type
          ∧ Arrival.phase arr ≠ p_type ∧ P_or_S r = 2))
    ∧ block_id mode nx ny dz (Origin.latitude origin)
        (Origin.longitude origin) (Origin.depth origin) = Ok (source_block r)
    ∧ block_id mode nx ny dz (Station.latitude sta) (Station.longitude sta) 0
      = Ok (station_block r)
    ∧ (0 < nx → 0 < ny → (0 < dz)%Q →
       (Origin.latitude origin <= 90)%Q →
       (-360 < Origin.longitude origin)%Q →
       (0 <= Origin.depth origin)%Q →
       1 ≤ source_block r)
    ∧ (0 < nx → 0 < ny → (0 < dz)%Q →
       (Station.latitude sta <= 90)%Q →
       (-360 < Station.longitude sta)%Q →
       1 ≤ station_block r).
Proof.
  intros Hrun Hr.
  apply process_many_events_rows in Hrun as [Hp Hs].
  rewrite Forall_forall in Hp, Hs.
  assert (∃ code e, e ∈ events ∧ created e wave_type code r
                    ∧ ((code = 1 ∧ r ∈ p_rows w') ∨ (code = 2 ∧ r ∈ s_rows w')))
    as (code & e & He & Hc & Hcode).
  { destruct Hr as [Hr|Hr].
    - destruct (Hp r Hr) as (e & He & Hc). exists 1, e. tauto.
    - destruct (Hs r Hr) as (e & He & Hc). exists 2, e. tauto. }
  apply created_inv in Hc
    as (p & s & origin & arr & pick & sta & Hsplit & Hor & Harr & Hpick
        & Hsta & Heb & Hsb & _ & Hps & Hphase).
  exists p, s, e, origin, arr, pick, sta.
  repeat (split; [assumption|]).
  split; [|split; [exact Heb|split; [exact Hsb|split]]].
  - destruct Hphase as [[? ?]|(? & ? & ?)], Hcode as [[? ?]|[? ?]];
      try lia; [left | right]; repeat split; congruence.
  - intros Hnx Hny Hdz Hlat Hlon Hz.
    destruct (block_id_positive mode nx ny dz _ _ _ Hnx Hny Hdz Hlat Hlon Hz)
      as (b & Hb & Hpos). congruence.
  - intros Hnx Hny Hdz Hlat Hlon.
    destruct (block_id_positive mode nx ny dz _ _ 0 Hnx Hny Hdz Hlat Hlon
                ltac:(lra)) as (b & Hb & Hpos). congruence.
Qed.

(** C5 (amended): an event whose processing raises, such as an event without
    preferred origin ([AttributeError]), makes the batch raise the same
    exception at that event: nothing catches or logs it, the writers stay as
    the events before it (and the failing event itself) left them, and no
    later event is processed. *)
Theorem failing_event_aborts_batch (pre post : list Event.t)
    (event : Event.t) (wave_type : string) (w w1 : writers) :
  process_many_events pre wave_type w = (Ok (), w1) →
  (∀ e w2,
     process_event event wave_type w1 = (Raise e, w2) →
     process_many_events (pre ++ event :: post) wave_type w = (Raise e, w2))
  ∧ (Event.preferred_origin event = None →
     process_many_events (pre ++ event :: post) wave_type w
     = (Raise AttributeError, w1)).
Proof.
  intros Hpre. unfold_batch in Hpre.
  destruct (Py.unpack2 (Py.split wave_type)) as [[p s]|] eqn:Hsplit;
    [|discriminate].
  assert (∀ e w2,
            process_event event wave_type w1 = (Raise e, w2) →
            process_many_events (pre ++ event :: post) wave_type w
            = (Raise e, w2)) as Habort.
  { intros e w2 Hev. unfold_batch. rewrite Hsplit.
    eapply for_each_raise; [exact Hpre|].
    cbv beta. unfold io_bind. rewrite Hev. reflexivity. }
  split; [exact Habort|].
  intros Hor. apply Habort. unfold_event. rewrite Hsplit, Hor.
  destruct (Event.creation_time event); reflexivity.
Qed.

End GatherFacts.

(** C5 (as stated): with the event without origin first, the batch raises
    and the rows of the event after it, which alone gives rows, are not
    written. *)
Lemma batch_aborts_on_missing_origin :
  sample_gather [event_without_origin; sample_event] "P S"
  = (Raise AttributeError, no_output)
  ∧ p_rows (sample_gather [sample_event] "P S").2 ≠ [].
Proof. vm_compute. split; [reflexivity | discriminate]. Qed.

Lemma failing_event_aborts_batch_witness :
  process_many_events Py.HalfEven meridian_degrees sample_stations 1440 720 25
    ([sample_event] ++ event_without_origin :: [sample_event]) "P S" no_output
  = (Raise AttributeError, (sample_gather [sample_event] "P S").2).
Proof.
  apply (failing_event_aborts_batch Py.HalfEven meridian_degrees
           sample_stations 1440 720 25 [sample_event] [sample_event]
           event_without_origin "P S" no_output).
  - vm_compute. reflexivity.
  - reflexivity.
Defined.

Lemma distance_gate_witness :
  ∃ r newp news,
    p_rows (sample_gather [sample_event] "P S").2 = [] ++ newp
    ∧ s_rows (sample_gather [sample_event] "P S").2 = [] ++ news
    ∧ (r ∈ newp ∨ r ∈ news)
    ∧ (locations2degrees r == 90)%Q
    ∧ residual r = Some (1 # 2)%Q
    ∧ observed_tt r = (1010 - 1000)%Q
    ∧ station_latitude r = (-60)%Q
    ∧ station_longitude r = 10%Q.
Proof.
  apply (proj1 (distance_gate Py.HalfEven meridian_degrees sample_stations
                  1440 720 25)
           sample_event "P S"%string sample_origin
           (Arrival.make (Some (Pick.make "AAA" 1010)) "P" (Some (1 # 2)%Q))
           (Pick.make "AAA" 1010) (Station.make (-60) 10) no_output
           (mkWriters (p_rows (sample_gather [sample_event] "P S").2)
              (s_rows (sample_gather [sample_event] "P S").2)
              [Warning_station_not_found "CCC"; Info_ignored_distance (9001 # 100)])).
  - vm_compute. reflexivity.
  - reflexivity.
  - apply list_elem_of_here.
  - reflexivity.
  - vm_compute. reflexivity.
  - vm_compute. apply list_elem_of_here.
  - vm_compute. reflexivity.
Defined.

(** C9 (as stated): the origin 1000 m above sea level gives a row whose
    [source_block] is negative; and with the pair [P P] the phase of the
    arrival equals the second wave type while [P_or_S] is 1. *)
Lemma block_not_positive_above_sea_level :
  (∃ r, p_rows (sample_gather [event_above_sea_level] "P S").2 = [r]
        ∧ source_block r = -41126359)
  ∧ (∃ r, p_rows (sample_gather [sample_event] "P P").2 = [r]
          ∧ Py.split "P P" = ["P"; "P"]%string ∧ P_or_S r = 1).
Proof. vm_compute. split; eexists; repeat split; reflexivity. Qed.

Lemma rows_phase_code_and_blocks_witness :
  ∃ event origin,
    event ∈ [sample_event]
    ∧ Event.preferred_origin event = Some origin
    ∧ block_id Py.HalfEven 1440 720 25 (Origin.latitude origin)
        (Origin.longitude origin) (Origin.depth origin) = Ok 41817641.
Proof.
  destruct (rows_phase_code_and_blocks Py.HalfEven meridian_degrees
              sample_stations 1440 720 25 [sample_event] "P S" (Ok ())
              (sample_gather [sample_event] "P S").2
              (mkRow 41817641 864041 (Some (1 # 2)%Q) 1500000 10 30 1000 10 (-60) 10
                 90 1))
    as (p & s & ev & o & arr & pick & sta & _ & Hev & Hor & _ & _ & _ & _
        & Hsrc & _).
  - vm_compute. reflexivity.
  - left. vm_compute. apply list_elem_of_here.
  - exists ev, o. repeat split; assumption.
Defined.

(** * Further properties *)

(** ** BlockIndexer *)

(** ** Rounding *)

Lemma inject_Z_succ (n : Z) : (inject_Z (n + 1) == inject_Z n + 1)%Q.
Proof. rewrite inject_Z_plus. reflexivity. Qed.

Lemma Qfloor_bounds (q : Q) :
  (inject_Z (Qfloor q) <= q)%Q ∧ (q < inject_Z (Qfloor q) + 1)%Q.
Proof.
  split; [apply Qfloor_le|]. rewrite <- inject_Z_succ. apply Qlt_floor.
Qed.

Lemma Qceiling_bounds (q : Q) :
  (inject_Z (Qceiling q) - 1 < q)%Q ∧ (q <= inject_Z (Qceiling q))%Q.
Proof.
  split; [|apply Qle_ceiling].
  pose proof (Qceiling_lt q) as H. unfold Z.sub in H.
  rewrite inject_Z_plus in H. exact H.
Qed.

Lemma inject_Z_lt_succ (a b : Z) : (inject_Z a < inject_Z b + 1)%Q ↔ a ≤ b.
Proof. rewrite <- inject_Z_succ, <- Zlt_Qlt. lia. Qed.

Lemma round_comp (m : Py.rounding) (q1 q2 : Q) :
  (q1 == q2)%Q → Py.round m q1 = Py.round m q2.
Proof.
  intros E. destruct m; simpl.
  - unfold Py.round_half_even. rewrite (Qfloor_comp _ _ E).
    assert (q1 - inject_Z (Qfloor q2) == q2 - inject_Z (Qfloor q2))%Q as ->
      by (rewrite E; reflexivity).
    reflexivity.
  - unfold Py.round_half_away. rewrite (Qleb_comp 0%Q 0%Q (Qeq_refl 0%Q) _ _ E).
    destruct (Qle_bool 0 q2);
      [apply Qfloor_comp | apply Qceiling_comp]; rewrite E; reflexivity.
Qed.

(** [round] is within one half of its argument. *)
Lemma round_near (m : Py.rounding) (q : Q) :
  (q - (1 # 2) <= inject_Z (Py.round m q))%Q
  ∧ (inject_Z (Py.round m q) <= q + (1 # 2))%Q.
Proof.
  destruct m; simpl.
  - unfold Py.round_half_even. destruct (Qfloor_bounds q) as [Hl Hu].
    destruct (Qcompare_spec (q - inject_Z (Qfloor q)) (1 # 2)) as [E|L|G].
    + destruct (Z.even (Qfloor q)); rewrite ?inject_Z_succ; split; lra.
    + split; lra.
    + rewrite inject_Z_succ. split; lra.
  - unfold Py.round_half_away. destruct (Qle_bool 0 q).
    + destruct (Qfloor_bounds (q + (1 # 2))). split; lra.
    + destruct (Qceiling_bounds (q - (1 # 2))). split; lra.
Qed.

(** The integer strictly within one half of [q] is [round q]. *)
Lemma round_unique (m : Py.rounding) (q : Q) (n : Z) :
  (q - (1 # 2) < inject_Z n)%Q → (inject_Z n < q + (1 # 2))%Q →
  Py.round m q = n.
Proof.
  intros Hl Hu. destruct (round_near m q) as [Rl Ru].
  apply Z.le_antisymm; apply inject_Z_lt_succ; lra.
Qed.

Lemma round_Z (m : Py.rounding) (n : Z) : Py.round m (inject_Z n) = n.
Proof. apply round_unique; lra. Qed.

Lemma round_mono (m : Py.rounding) (q1 q2 : Q) :
  (q1 <= q2)%Q → Py.round m q1 ≤ Py.round m q2.
Proof.
  intros Hle. destruct m; simpl.
  - unfold Py.round_half_even.
    pose proof (Qfloor_resp_le _ _ Hle) as Hf.
    destruct (Qfloor_bounds q1) as [Hl1 Hu1], (Qfloor_bounds q2) as [Hl2 Hu2].
    destruct (Z.eq_dec (Qfloor q1) (Qfloor q2)) as [E|Hne].
    + rewrite E in *.
      destruct (Qcompare_spec (q1 - inject_Z (Qfloor q2)) (1 # 2)),
               (Qcompare_spec (q2 - inject_Z (Qfloor q2)) (1 # 2));
        try destruct (Z.even (Qfloor q2)); first [lia | exfalso; lra].
    + assert (Qfloor q1 + 1 ≤ Qfloor q2) by lia.
      destruct (q1 - inject_Z (Qfloor q1) ?= 1 # 2)%Q,
               (q2 - inject_Z (Qfloor q2) ?= 1 # 2)%Q;
        try destruct (Z.even (Qfloor q1)); try destruct (Z.even (Qfloor q2));
        lia.
  - unfold Py.round_half_away.
    destruct (Qle_bool 0 q1) eqn:E1, (Qle_bool 0 q2) eqn:E2.
    + apply Qfloor_resp_le. lra.
    + apply Qle_bool_iff in E1.
      assert (¬ (0 <= q2)%Q) by (rewrite <- Qle_bool_iff; congruence). lra.
    + apply Qle_bool_iff in E2.
      assert (¬ (0 <= q1)%Q) as Hn by (rewrite <- Qle_bool_iff; congruence).
      destruct (Qceiling_bounds (q1 - (1 # 2))) as [Hc _].
      destruct (Qfloor_bounds (q2 + (1 # 2))) as [_ Hf].
      assert (Qceiling (q1 - (1 # 2)) ≤ 0)
        by (apply inject_Z_lt_succ; change (inject_Z 0) with 0%Q; lra).
      assert (0 ≤ Qfloor (q2 + (1 # 2))) by (apply Qfloor_nonneg; lra).
      lia.
    + apply Qceiling_resp_le. lra.
Qed.

Lemma grid_step_pos (c : Q) (n : Z) : (0 < c)%Q → 0 < n → (0 < c / inject_Z n)%Q.
Proof.
  intros Hc Hn. apply Qlt_shift_div_l; [|lra].
  unfold Qlt. simpl. lia.
Qed.

Lemma grid_step_cells (c : Q) (n : Z) :
  ¬ (c == 0)%Q → n ≠ 0 → (c / (c / inject_Z n) == inject_Z n)%Q.
Proof.
  intros Hc Hn. apply inject_Z_nonzero in Hn. field. split; assumption.
Qed.

Lemma float_find_block_raises {F} (A : Float.arith F) (dx dy dz : F)
    (nx ny : Z) (lat lon z : F) (e : exn) :
  Float._find_block A dx dy dz nx ny lat lon z = Raise e →
  (e = ZeroDivisionError
   ∧ (Float.is_zero A dx = true ∨ Float.is_zero A dy = true
      ∨ Float.is_zero A dz = true))
  ∨ e = OverflowError ∨ e = ValueError.
Proof.
  unfold Float._find_block, Float.truediv, Float.round.
  destruct (Float.is_zero A dx) eqn:Zx; simpl; [intros [= <-]; auto|].
  destruct (Float.is_nan A _); simpl; [intros [= <-]; auto|].
  destruct (Float.is_inf A _); simpl; [intros [= <-]; auto|].
  destruct (Float.is_zero A dy) eqn:Zy; simpl; [intros [= <-]; auto|].
  destruct (Float.is_nan A _); simpl; [intros [= <-]; auto|].
  destruct (Float.is_inf A _); simpl; [intros [= <-]; auto|].
  destruct (Float.is_zero A dz) eqn:Zz; simpl; [intros [= <-]; auto 6|].
  destruct (Float.is_nan A _); simpl; [intros [= <-]; auto|].
  destruct (Float.is_inf A _); simpl; [intros [= <-]; auto|].
  discriminate.
Qed.

(** X1: in the arithmetic of the interpreter, the exceptions of the block
    indexer are those of its arithmetic and no other: [ZeroDivisionError],
    which is raised only when [nx], [ny] or [dz] is zero and always when
    [nx] is, and [OverflowError] or [ValueError], from an int too large for
    a float or from [round] on a quotient that is not finite.  No coordinate
    is rejected for being out of range. *)
Theorem block_id_exceptions {F : Type} (A : Float.arith F) (nx ny : Z)
    (dz lat lon z : F) :
  Float.lawful A →
  (∀ e, Float.block_id A nx ny dz lat lon z = Raise e →
        e = ZeroDivisionError ∨ e = OverflowError ∨ e = ValueError)
  ∧ (Float.block_id A nx ny dz lat lon z = Raise ZeroDivisionError →
     nx = 0 ∨ ny = 0 ∨ Float.is_zero A dz = true)
  ∧ (nx = 0 →
     Float.block_id A nx ny dz lat lon z = Raise ZeroDivisionError).
Proof.
  intros [[f0 H0] Hz Hstep].
  assert (∀ e, Float.block_id A nx ny dz lat lon z = Raise e →
            (e = ZeroDivisionError
             ∧ (nx = 0 ∨ ny = 0 ∨ Float.is_zero A dz = true))
            ∨ e = OverflowError ∨ e = ValueError) as Hall.
  { intros e. unfold Float.block_id, Float.grid_steps, Float.float_of_int,
      Float.truediv.
    destruct (Float.of_Z A nx) as [fx|] eqn:Hx; simpl; [|intros [= <-]; auto].
    destruct (Float.is_zero A fx) eqn:Zx; simpl.
    { intros [= <-]. left. split; [reflexivity|]. left.
      apply (Hz nx fx Hx), Zx. }
    destruct (Float.of_Z A ny) as [fy|] eqn:Hy; simpl; [|intros [= <-]; auto].
    destruct (Float.is_zero A fy) eqn:Zy; simpl.
    { intros [= <-]. left. split; [reflexivity|]. right. left.
      apply (Hz ny fy Hy), Zy. }
    intros Hb. apply float_find_block_raises in Hb
      as [[-> [Zdx|[Zdy|Zdz]]]|Hother]; [| | |auto].
    - destruct (Hstep nx fx Hx Zx) as [E _]. congruence.
    - destruct (Hstep ny fy Hy Zy) as [_ E]. congruence.
    - auto. }
  split; [|split].
  - intros e He. destruct (Hall e He) as [[-> _]|H]; auto.
  - intros He. destruct (Hall _ He) as [[_ H]|[H|H]];
      [exact H | discriminate | discriminate].
  - intros ->. unfold Float.block_id, Float.grid_steps, Float.float_of_int,
      Float.truediv.
    rewrite H0. simpl.
    rewrite (proj2 (Hz 0 f0 H0) eq_refl). reflexivity.
Qed.

Lemma block_id_exceptions_witness :
  Float.block_id (Float.with_range Py.HalfEven Float.max_double) 0 720
    (Float.Fin 25) (Float.Fin 30) (Float.Fin 10) (Float.Fin 1000)
  = Raise ZeroDivisionError.
Proof.
  apply (proj2 (proj2 (block_id_exceptions
                         (Float.with_range Py.HalfEven Float.max_double)
                         0 720 (Float.Fin 25) (Float.Fin 30) (Float.Fin 10)
                         (Float.Fin 1000)
                         (with_range_lawful Py.HalfEven Float.max_double
                            ltac:(vm_compute; congruence))))).
  reflexivity.
Defined.

Lemma block_id_ok_inv (mode : Py.rounding) (nx ny : Z) (dz lat lon z : Q)
    (b : Z) :
  block_id mode nx ny dz lat lon z = Ok b →
  nx ≠ 0 ∧ ny ≠ 0 ∧ ¬ (dz == 0)%Q.
Proof.
  unfold block_id, grid_steps. intros H.
  destruct (decide (nx = 0)) as [->|Hnx]; [discriminate|].
  rewrite (div_ok _ _ (inject_Z_nonzero nx Hnx)) in H. simpl in H.
  destruct (decide (ny = 0)) as [->|Hny]; [discriminate|].
  rewrite (div_ok _ _ (inject_Z_nonzero ny Hny)) in H. simpl in H.
  unfold _find_block in H.
  rewrite (div_ok _ (360 / inject_Z nx)) in H
    by (apply grid_step_nonzero; [discriminate | exact Hnx]).
  simpl in H.
  rewrite (div_ok _ (180 / inject_Z ny)) in H
    by (apply grid_step_nonzero; [discriminate | exact Hny]).
  simpl in H.
  destruct (Qeq_dec dz 0) as [Hz|Hz]; [|tauto].
  rewrite (div_zero _ _ Hz) in H. discriminate.
Qed.


(** X4: longitude 0 is taken as 360 and so falls into the last longitude
    cell, while the longitudes up to a quarter of a cell east of it fall
    into the first: under Python 3, on a grid of at most 2^50 longitude
    segments, when the indexer returns [b] for such an eastern neighbour it
    returns [b + nx] at longitude 0, at the same latitude and depth. *)
Theorem prime_meridian_block (nx ny : Z) (dz lat lon z : Q) (b : Z) :
  0 < nx → nx ≤ 2 ^ 50 →
  (0 < lon)%Q → (lon / (360 / inject_Z nx) <= 1 # 4)%Q →
  block_id Py.HalfEven nx ny dz lat lon z = Ok b →
  block_id Py.HalfEven nx ny dz lat 0 z = Ok (b + nx).
Proof.
  intros Hnx _ Hlon Hsmall Hb.
  destruct (block_id_ok_inv _ _ _ _ _ _ _ _ Hb) as (_ & Hny & Hdz).
  pose proof (grid_step_pos 360 nx ltac:(lra) Hnx) as Hdx.
  pose proof (grid_step_nonzero 180 ny ltac:(discriminate) Hny) as Hdy.
  revert Hb. unfold block_id. rewrite grid_steps_ok by lia. simpl.
  rewrite !find_block_ok by (assumption || lra).
  intros [= <-]. f_equal.
  change Py.round_half_even with (Py.round Py.HalfEven).
  assert (normalize_lon lon = lon) as ->
    by (unfold normalize_lon; destruct (Qlt_le_dec 0 lon); [reflexivity | lra]).
  rewrite (round_unique Py.HalfEven (lon / (360 / inject_Z nx)) 0).
  - change (normalize_lon 0) with (0 + 360)%Q.
    rewrite (round_comp Py.HalfEven ((0 + 360) / (360 / inject_Z nx))
               (inject_Z nx)), round_Z.
    + lia.
    + assert (0 + 360 == 360)%Q as -> by ring.
      apply grid_step_cells; [discriminate | lia].
  - change (inject_Z 0) with 0%Q. lra.
  - change (inject_Z 0) with 0%Q.
    pose proof (Qdiv_nonneg lon (360 / inject_Z nx) ltac:(lra) Hdx). lra.
Qed.

(** X5: a longitude in (-360, 0] and the longitude 360 degrees east of it
    have the same block number (or fail alike), for every grid. *)
Theorem west_longitude_wraps (mode : Py.rounding) (nx ny : Z)
    (dz lat lon z : Q) :
  (-360 < lon)%Q → (lon <= 0)%Q →
  block_id mode nx ny dz lat lon z = block_id mode nx ny dz lat (lon + 360) z.
Proof.
  intros Hlo Hhi. unfold block_id, _find_block.
  assert (normalize_lon lon = normalize_lon (lon + 360)) as ->; [|reflexivity].
  unfold normalize_lon.
  destruct (Qlt_le_dec 0 lon), (Qlt_le_dec 0 (lon + 360)); try reflexivity; lra.
Qed.

Lemma Qdiv_le_mono (a b c : Q) : (0 < c)%Q → (a <= b)%Q → (a / c <= b / c)%Q.
Proof.
  intros Hc Hab. unfold Qdiv. apply Qmult_le_compat_r; [exact Hab|].
  apply Qlt_le_weak, Qinv_lt_0_compat, Hc.
Qed.

(** X6: on a positive grid the block number does not decrease when the
    depth grows and the latitude moves south, the longitude being the same. *)
Theorem block_id_monotone (mode : Py.rounding) (nx ny : Z)
    (dz lat1 lat2 lon z1 z2 : Q) (b1 b2 : Z) :
  0 < nx → 0 < ny → (0 < dz)%Q →
  (z1 <= z2)%Q → (lat2 <= lat1)%Q →
  block_id mode nx ny dz lat1 lon z1 = Ok b1 →
  block_id mode nx ny dz lat2 lon z2 = Ok b2 →
  b1 ≤ b2.
Proof.
  intros Hnx Hny Hdz Hz Hlat.
  pose proof (grid_step_pos 360 nx ltac:(lra) Hnx) as Hdx.
  pose proof (grid_step_pos 180 ny ltac:(lra) Hny) as Hdy.
  unfold block_id. rewrite grid_steps_ok by lia. simpl.
  rewrite !find_block_ok by lra. intros [= <-] [= <-].
  pose proof (round_mono mode _ _ (Qdiv_le_mono z1 z2 dz Hdz Hz)).
  pose proof (round_mono mode _ _
                (Qdiv_le_mono (90 - lat1) (90 - lat2) _ Hdy ltac:(lra))).
  apply Z.add_le_mono_r, Z.add_le_mono.
  - rewrite <- !Z.mul_assoc. apply Z.mul_le_mono_nonneg_r; lia.
  - apply Z.mul_le_mono_nonneg_r; lia.
Qed.


Lemma prime_meridian_block_witness :
  block_id Py.HalfEven 1440 720 25 30 0 1000 = Ok (41817641 - 40 + 1440).
Proof.
  apply (prime_meridian_block 1440 720 25 30 (1 # 100) 1000);
    first [lia | reflexivity | vm_compute; congruence].
Defined.

Lemma west_longitude_wraps_witness :
  block_id Py.HalfEven 1440 720 25 30 (-170) 1000
  = block_id Py.HalfEven 1440 720 25 30 (-170 + 360) 1000.
Proof.
  apply (west_longitude_wraps Py.HalfEven 1440 720 25 30 (-170) 1000);
    first [reflexivity | vm_compute; congruence].
Defined.

Lemma block_id_monotone_witness :
  ∃ b1 b2,
    block_id Py.HalfEven 1440 720 25 30 10 1000 = Ok b1
    ∧ block_id Py.HalfEven 1440 720 25 20 10 2000 = Ok b2
    ∧ b1 ≤ b2.
Proof.
  eexists. eexists.
  split; [vm_compute; reflexivity|]. split; [vm_compute; reflexivity|].
  apply (block_id_monotone Py.HalfEven 1440 720 25 30 20 10 1000 2000);
    first [lia | reflexivity | vm_compute; congruence].
Defined.

(** ** DedupFilter *)

(** X7: the frame that [sort] returns is in strictly ascending order of
    the key [(source_block, station_block)], so that no key occurs twice in
    it. *)
Theorem sort_output_keys_ascending (df out : list ArrivalRow) :
  sort df = Ok out →
  StronglySorted key_lt (key <$> out) ∧ NoDup (key <$> out).
Proof.
  intros Hs. pose proof (sort_output_strict df out Hs) as H.
  split; [exact H | apply StronglySorted_strict_NoDup, H].
Qed.

(** X8: [sort] invents no row: every row of its output is a row of its
    input, and the output has at most as many rows as the input has
    different keys. *)
Theorem sort_output_from_input (df out : list ArrivalRow) :
  sort df = Ok out →
  (∀ r, r ∈ out → r ∈ df)
  ∧ (length out ≤ length (group_keys df))%nat
  ∧ (length out ≤ length df)%nat.
Proof.
  intros Hs.
  assert (∀ r, r ∈ out → r ∈ df) as Hsub
    by (intros r; apply (sort_subseteq df out r Hs)).
  split; [exact Hsub|].
  assert (length out ≤ length (group_keys df))%nat as Hlen.
  { rewrite <- (length_fmap key out). apply submseteq_length.
    apply NoDup_submseteq.
    - apply StronglySorted_strict_NoDup, (sort_output_strict df out Hs).
    - intros k Hk. apply elem_of_group_keys.
      apply list_elem_of_fmap in Hk as (r & -> & Hr).
      apply list_elem_of_fmap_2, Hsub, Hr. }
  split; [exact Hlen|].
  etransitivity; [exact Hlen|].
  rewrite <- (length_fmap key df). apply submseteq_length.
  apply NoDup_submseteq; [apply NoDup_group_keys|].
  intros k. apply elem_of_group_keys.
Qed.

Lemma median_odd_elem (vs : list Q) :
  Nat.odd (length vs) = true → ∃ v, median vs = Some v ∧ v ∈ vs.
Proof.
  intros Hodd. unfold median.
  pose proof (merge_sort_Permutation Qle vs) as Hperm.
  rewrite (Permutation_length Hperm).
  rewrite <- Nat.negb_odd, Hodd. simpl.
  destruct (lookup_lt_is_Some_2 (merge_sort Qle vs) (length vs / 2)%nat)
    as [v Hv].
  - rewrite (Permutation_length Hperm). apply Nat.div_lt; [|lia].
    destruct vs; [discriminate | simpl; lia].
  - exists v. split; [exact Hv|].
    rewrite <- Hperm. eapply list_elem_of_lookup_2, Hv.
Qed.

(** X9: a key with an odd number of rows is never lost: [sort] keeps
    exactly one row of it, a row of the group whose travel time is the
    median of the group. *)
Theorem sort_keeps_odd_group (df out : list ArrivalRow) (k : Z * Z) :
  sort df = Ok out →
  Nat.odd (length (filter (with_key k) df)) = true →
  ∃ r med,
    filter (with_key k) out = [r]
    ∧ r ∈ filter (with_key k) df
    ∧ median (observed_tt <$> filter (with_key k) df) = Some med
    ∧ (observed_tt r == med)%Q.
Proof.
  intros Hs Hodd. rewrite (sort_group df out k Hs).
  destruct (median_odd_elem (observed_tt <$> filter (with_key k) df))
    as (med & Hmed & Hin); [rewrite length_fmap; exact Hodd|].
  apply list_elem_of_fmap in Hin as (r0 & -> & Hr0).
  unfold keep_group. rewrite Hmed.
  assert (r0 ∈ filter (λ r, observed_tt r == observed_tt r0)%Q
                 (filter (with_key k) df)) as Hne
    by (apply list_elem_of_filter; split; [reflexivity | exact Hr0]).
  destruct (filter (λ r, observed_tt r == observed_tt r0)%Q
              (filter (with_key k) df)) as [|r l] eqn:E; [inversion Hne|].
  exists r, (observed_tt r0). simpl.
  assert (r ∈ r :: l) as Hr by left. rewrite <- E in Hr.
  apply list_elem_of_filter in Hr as [Hq Hr]. repeat split; assumption.
Qed.

Lemma median_all_equal (vs : list Q) (v m : Q) :
  Forall (λ x, x == v)%Q vs → median vs = Some m → (m == v)%Q.
Proof.
  intros Hall. unfold median.
  pose proof (merge_sort_Permutation Qle vs) as Hperm.
  rewrite <- Hperm, Forall_forall in Hall.
  set (s := merge_sort Qle vs) in *. cbv [mbind option_bind].
  destruct (Nat.even (length s)).
  - destruct (s !! (length s / 2 - 1)%nat) as [a|] eqn:Ha; [|discriminate].
    destruct (s !! (length s / 2)%nat) as [b|] eqn:Hb; [|discriminate].
    intros [= Hm].
    apply list_elem_of_lookup_2, Hall in Ha.
    apply list_elem_of_lookup_2, Hall in Hb. rewrite <- Hm, Ha, Hb. field.
  - intros Hm. apply list_elem_of_lookup_2, Hall in Hm. exact Hm.
Qed.

(** X10: of a group whose rows all have the same travel time [sort] keeps
    the first row in input order, whatever the size of the group. *)
Theorem sort_keeps_first_of_equal (df out : list ArrivalRow) (k : Z * Z)
    (r0 : ArrivalRow) (rest : list ArrivalRow) :
  sort df = Ok out →
  filter (with_key k) df = r0 :: rest →
  Forall (λ r, observed_tt r == observed_tt r0)%Q rest →
  filter (with_key k) out = [r0].
Proof.
  intros Hs Hg Hall. rewrite (sort_group df out k Hs), Hg.
  unfold keep_group.
  destruct (median_is_Some (observed_tt <$> r0 :: rest)) as [med Hmed];
    [discriminate|].
  rewrite Hmed.
  assert (med == observed_tt r0)%Q as Hm.
  { eapply median_all_equal; [|exact Hmed].
    rewrite fmap_cons. constructor; [reflexivity|].
    apply Forall_fmap. exact Hall. }
  rewrite filter_cons_True by (symmetry; exact Hm). reflexivity.
Qed.

Lemma filter_key_head (r : ArrivalRow) (l : list ArrivalRow) :
  StronglySorted key_lt (key <$> r :: l) →
  ∀ k, filter (with_key k) (r :: l)
       = if decide (key r = k) then [r] else filter (with_key k) l.
Proof.
  rewrite fmap_cons. intros [Hall _]%StronglySorted_cons k.
  rewrite filter_cons. destruct (decide (key r = k)) as [<-|]; [|reflexivity].
  f_equal. apply filter_none. intros r' Hr' E.
  rewrite Forall_forall in Hall.
  destruct (Hall (key r') (list_elem_of_fmap_2 key _ _ Hr')) as [_ Hne].
  congruence.
Qed.

(** Frames with strictly ascending keys that agree key by key are equal. *)
Lemma ascending_frames_ext (l1 l2 : list ArrivalRow) :
  StronglySorted key_lt (key <$> l1) → StronglySorted key_lt (key <$> l2) →
  (∀ k, filter (with_key k) l1 = filter (with_key k) l2) → l1 = l2.
Proof.
  revert l2. induction l1 as [|r1 l1 IH]; intros l2 H1 H2 Hext.
  - destruct l2 as [|r2 l2]; [reflexivity|].
    specialize (Hext (key r2)). rewrite filter_cons_True in Hext by reflexivity.
    discriminate.
  - destruct l2 as [|r2 l2].
    { specialize (Hext (key r1)).
      rewrite filter_cons_True in Hext by reflexivity. discriminate. }
    pose proof (filter_key_head r1 l1 H1) as F1.
    pose proof (filter_key_head r2 l2 H2) as F2.
    assert (r1 = r2) as <-.
    { pose proof (Hext (key r1)) as E1. pose proof (Hext (key r2)) as E2.
      rewrite F1, F2 in E1, E2.
      rewrite decide_True in E1 by reflexivity.
      rewrite (decide_True (P := key r2 = key r2)) in E2 by reflexivity.
      destruct (decide (key r2 = key r1)) as [E|Hne];
        [congruence|].
      rewrite decide_False in E2 by congruence.
      (* r1 occurs in l2 and r2 in l1: the keys would be ordered both ways *)
      assert (r1 ∈ l2) as In1
        by (eapply (list_elem_of_filter (with_key (key r1)));
            rewrite <- E1; left).
      assert (r2 ∈ l1) as In2
        by (eapply (list_elem_of_filter (with_key (key r2)));
            rewrite E2; left).
      rewrite fmap_cons in H1, H2.
      apply StronglySorted_cons in H1 as [A1 _].
      apply StronglySorted_cons in H2 as [A2 _].
      rewrite Forall_forall in A1, A2.
      destruct (A1 _ (list_elem_of_fmap_2 key _ _ In2)) as [L1 _].
      destruct (A2 _ (list_elem_of_fmap_2 key _ _ In1)) as [L2 _].
      exfalso. apply Hne. apply (anti_symm key_le); assumption. }
    f_equal. rewrite fmap_cons in H1, H2.
    apply IH.
    + apply StronglySorted_cons in H1. tauto.
    + apply StronglySorted_cons in H2. tauto.
    + intros k. specialize (Hext k). rewrite F1, F2 in Hext.
      destruct (decide (key r1 = k)) as [<-|]; [|exact Hext].
      apply StronglySorted_cons in H1 as [A1 _].
      apply StronglySorted_cons in H2 as [A2 _].
      rewrite Forall_forall in A1, A2.
      rewrite !filter_none; [reflexivity| |].
      * intros r Hr E. destruct (A2 _ (list_elem_of_fmap_2 key _ _ Hr)).
        congruence.
      * intros r Hr E. destruct (A1 _ (list_elem_of_fmap_2 key _ _ Hr)).
        congruence.
Qed.

(** X11: the result of [sort] depends only on the rows of each key in
    their input order: two frames that agree key by key have the same
    result, however their groups are interleaved. *)
Theorem sort_depends_on_groups (df1 df2 : list ArrivalRow) :
  (∀ k, filter (with_key k) df1 = filter (with_key k) df2) →
  sort df1 = sort df2.
Proof.
  intros Hext.
  destruct (decide (df1 = [])) as [->|Hne1].
  { destruct df2 as [|r df2]; [reflexivity|].
    specialize (Hext (key r)). rewrite filter_cons_True in Hext by reflexivity.
    discriminate. }
  destruct (decide (df2 = [])) as [->|Hne2].
  { destruct df1 as [|r df1]; [contradiction|].
    specialize (Hext (key r)). rewrite filter_cons_True in Hext by reflexivity.
    discriminate. }
  destruct (proj2 (sort_ok_iff df1) Hne1) as [out1 H1].
  destruct (proj2 (sort_ok_iff df2) Hne2) as [out2 H2].
  rewrite H1, H2. f_equal. apply ascending_frames_ext.
  - apply (sort_output_strict df1), H1.
  - apply (sort_output_strict df2), H2.
  - intros k. rewrite (sort_group df1 out1 k H1), (sort_group df2 out2 k H2).
    rewrite Hext. reflexivity.
Qed.

Lemma sort_depends_on_groups_witness :
  sort [row_tt 7 9 3; row_tt 1 2 4; row_tt 7 9 1]
  = sort [row_tt 1 2 4; row_tt 7 9 3; row_tt 7 9 1].
Proof.
  apply sort_depends_on_groups. intros [a b].
  rewrite !filter_cons, !filter_nil. unfold key, row_tt. simpl.
  repeat destruct (decide _); congruence.
Defined.

Lemma sort_output_keys_ascending_witness :
  StronglySorted key_lt (key <$> [row_tt 1 2 4; row_tt 7 9 2])
  ∧ NoDup (key <$> [row_tt 1 2 4; row_tt 7 9 2]).
Proof.
  apply (sort_output_keys_ascending
           [row_tt 7 9 3; row_tt 1 2 4; row_tt 7 9 1; row_tt 7 9 2]).
  vm_compute. reflexivity.
Defined.

Lemma sort_output_from_input_witness :
  (∀ r, r ∈ [row_tt 1 2 4; row_tt 7 9 2] →
        r ∈ [row_tt 7 9 3; row_tt 1 2 4; row_tt 7 9 1; row_tt 7 9 2])
  ∧ (length [row_tt 1 2 4; row_tt 7 9 2]
     ≤ length (group_keys
                 [row_tt 7 9 3; row_tt 1 2 4; row_tt 7 9 1; row_tt 7 9 2]))%nat
  ∧ (length [row_tt 1 2 4; row_tt 7 9 2]
     ≤ length [row_tt 7 9 3; row_tt 1 2 4; row_tt 7 9 1; row_tt 7 9 2])%nat.
Proof.
  apply (sort_output_from_input
           [row_tt 7 9 3; row_tt 1 2 4; row_tt 7 9 1; row_tt 7 9 2]).
  vm_compute. reflexivity.
Defined.

Lemma sort_keeps_odd_group_witness :
  ∃ r med,
    filter (with_key (7, 9)) [row_tt 1 2 4; row_tt 7 9 2] = [r]
    ∧ r ∈ filter (with_key (7, 9))
            [row_tt 7 9 3; row_tt 1 2 4; row_tt 7 9 1; row_tt 7 9 2]
    ∧ median (observed_tt <$> filter (with_key (7, 9))
                [row_tt 7 9 3; row_tt 1 2 4; row_tt 7 9 1; row_tt 7 9 2])
      = Some med
    ∧ (observed_tt r == med)%Q.
Proof.
  apply (sort_keeps_odd_group
           [row_tt 7 9 3; row_tt 1 2 4; row_tt 7 9 1; row_tt 7 9 2]).
  - vm_compute. reflexivity.
  - vm_compute. reflexivity.
Defined.

Lemma sort_keeps_first_of_equal_witness :
  filter (with_key (7, 9)) [row_ev 1 1 101 6; row_ev 7 9 100 5]
  = [row_ev 7 9 100 5].
Proof.
  apply (sort_keeps_first_of_equal
           [row_ev 7 9 100 5; row_ev 1 1 101 6; row_ev 7 9 102 5]
           [row_ev 1 1 101 6; row_ev 7 9 100 5] (7, 9)
           (row_ev 7 9 100 5) [row_ev 7 9 102 5]).
  - vm_compute. reflexivity.
  - vm_compute. reflexivity.
  - repeat constructor.
Defined.

(** ** PhaseMatcher *)

Lemma occurrences_keys (k : Z * Z) (df : list ArrivalRow) :
  occurrences k (key <$> df) = length (filter (with_key k) df).
Proof.
  unfold occurrences. induction df as [|r df IH]; [reflexivity|].
  rewrite fmap_cons, !filter_cons. change (id (key r)) with (key r).
  destruct (decide (key r = k)); cbn [length]; rewrite IH; reflexivity.
Qed.

Lemma fmap_const_replicate {A B} (b : B) (l : list A) :
  (λ _, b) <$> l = replicate (length l) b.
Proof. induction l as [|a l IH]; [reflexivity|]. rewrite fmap_cons, IH. reflexivity. Qed.

(** The key frame [blocks] holds each key as often as the product of its
    occurrences on the two sides. *)
Lemma occurrences_blocks (k : Z * Z) (ks1 ks2 : list (Z * Z)) :
  occurrences k (pd_merge id id (λ k _, k) ks1 ks2)
  = (occurrences k ks1 * occurrences k ks2)%nat.
Proof.
  unfold occurrences, pd_merge. induction ks1 as [|a ks1 IH]; [reflexivity|].
  rewrite bind_cons, filter_app, length_app, IH, filter_cons.
  rewrite fmap_const_replicate. change (id a) with a.
  destruct (decide (a = k)) as [->|Hne].
  - rewrite filter_all
      by (intros x ->%elem_of_replicate_inv; reflexivity).
    rewrite length_replicate. cbn [length]. lia.
  - rewrite filter_none
      by (intros x ->%elem_of_replicate_inv; exact Hne).
    reflexivity.
Qed.

(** Merging a frame with a key frame repeats each row as often as its key
    occurs in the key frame. *)
Lemma merge_blocks_replicate (df : list ArrivalRow) (blocks : list (Z * Z)) :
  pd_merge key id (λ r _, r) df blocks
  = df ≫= (λ r, replicate (occurrences (key r) blocks) r).
Proof.
  unfold pd_merge, occurrences. induction df as [|r df IH]; [reflexivity|].
  rewrite !bind_cons, IH, fmap_const_replicate. reflexivity.
Qed.

Lemma bind_ext_in {A B} (f g : A → list B) (l : list A) :
  (∀ a, a ∈ l → f a = g a) → l ≫= f = l ≫= g.
Proof.
  induction l as [|a l IH]; intros H; [reflexivity|].
  rewrite !bind_cons, (H a) by left.
  rewrite IH by (intros b Hb; apply H; right; exact Hb). reflexivity.
Qed.

(** X12: [match] treats its two frames alike: with the two inputs
    exchanged the two outputs are exchanged. *)
Theorem match_symmetric (p_arr s_arr : list ArrivalRow) :
  (match_ p_arr s_arr).1 = (match_ s_arr p_arr).2
  ∧ (match_ p_arr s_arr).2 = (match_ s_arr p_arr).1.
Proof.
  unfold match_. simpl. rewrite !merge_blocks_replicate.
  split; apply bind_ext_in; intros r _; f_equal;
    rewrite !occurrences_blocks; lia.
Qed.

(** X13: [match] multiplies repeated keys: a key with [np] rows in the
    first frame and [ns] rows in the second has [np * (np * ns)] rows in the
    first output and [ns * (np * ns)] rows in the second. *)
Theorem match_multiplies_duplicates (p_arr s_arr : list ArrivalRow)
    (k : Z * Z) :
  let np := length (filter (with_key k) p_arr) in
  let ns := length (filter (with_key k) s_arr) in
  length (filter (with_key k) (match_ p_arr s_arr).1) = (np * (np * ns))%nat
  ∧ length (filter (with_key k) (match_ p_arr s_arr).2) = (ns * (np * ns))%nat.
Proof.
  intros np ns.
  assert (∀ df blocks,
            length (filter (with_key k)
                      (df ≫= (λ r, replicate (occurrences (key r) blocks) r)))
            = (length (filter (with_key k) df) * occurrences k blocks)%nat)
    as Hcount.
  { intros df blocks. induction df as [|r df IH]; [reflexivity|].
    rewrite bind_cons, filter_app, length_app, IH, filter_cons.
    destruct (decide (key r = k)) as [<-|Hne].
    - rewrite filter_all
        by (intros x ->%elem_of_replicate_inv; reflexivity).
      rewrite length_replicate. simpl. lia.
    - rewrite filter_none
        by (intros x ->%elem_of_replicate_inv; exact Hne).
      reflexivity. }
  unfold match_. simpl. rewrite !merge_blocks_replicate, !Hcount.
  rewrite occurrences_blocks, !occurrences_keys. fold np ns. split; lia.
Qed.

Lemma fmap_key_filter (ks : list (Z * Z)) (df : list ArrivalRow) :
  key <$> filter (λ r, key r ∈ ks) df = filter (λ k, k ∈ ks) (key <$> df).
Proof.
  induction df as [|r df IH]; [reflexivity|].
  rewrite fmap_cons, !filter_cons.
  destruct (decide (key r ∈ ks)); rewrite ?fmap_cons, IH; reflexivity.
Qed.

Lemma StronglySorted_filter {A} (R : relation A) (P : A → Prop)
    `{∀ x, Decision (P x)} (l : list A) :
  StronglySorted R l → StronglySorted R (filter P l).
Proof.
  induction 1 as [|x l Hs IH Hall]; [constructor|].
  rewrite filter_cons. destruct (decide (P x)); [|exact IH].
  constructor; [exact IH|].
  apply Forall_forall. intros y [_ Hy]%list_elem_of_filter.
  rewrite Forall_forall in Hall. apply Hall, Hy.
Qed.

(** On frames without repeated keys the two outputs hold the same keys. *)
Lemma matched_keys_Permutation (p_arr s_arr : list ArrivalRow) :
  NoDup (key <$> p_arr) → NoDup (key <$> s_arr) →
  key <$> filter (λ r, key r ∈ key <$> s_arr) p_arr
  ≡ₚ key <$> filter (λ r, key r ∈ key <$> p_arr) s_arr.
Proof.
  intros Hp Hs. rewrite !fmap_key_filter.
  apply NoDup_Permutation; [apply NoDup_filter, Hp | apply NoDup_filter, Hs|].
  intros k. rewrite !list_elem_of_filter. tauto.
Qed.

(** X14: on frames without repeated keys the two outputs of [match] hold
    the same keys and have the same number of rows. *)
Theorem match_outputs_same_keys (p_arr s_arr p' s' : list ArrivalRow) :
  NoDup (key <$> p_arr) → NoDup (key <$> s_arr) →
  match_ p_arr s_arr = (p', s') →
  key <$> p' ≡ₚ key <$> s' ∧ length p' = length s'.
Proof.
  intros Hp Hs Hm. rewrite match_filter in Hm by assumption.
  injection Hm as <- <-.
  pose proof (matched_keys_Permutation _ _ Hp Hs) as Hperm.
  split; [exact Hperm|].
  rewrite <- (length_fmap key), <- (length_fmap key (filter _ s_arr)).
  apply Permutation_length, Hperm.
Qed.

(** X15: on frames without repeated keys [match] is idempotent: matching
    its two outputs gives them back. *)
Theorem match_idempotent (p_arr s_arr p' s' : list ArrivalRow) :
  NoDup (key <$> p_arr) → NoDup (key <$> s_arr) →
  match_ p_arr s_arr = (p', s') →
  match_ p' s' = (p', s').
Proof.
  intros Hp Hs Hm.
  pose proof (matched_keys_Permutation _ _ Hp Hs) as Hperm.
  rewrite match_filter in Hm by assumption. injection Hm as <- <-.
  set (p' := filter (λ r, key r ∈ key <$> s_arr) p_arr) in *.
  set (s' := filter (λ r, key r ∈ key <$> p_arr) s_arr) in *.
  assert (NoDup (key <$> p')) as Hp'.
  { unfold p'. rewrite fmap_key_filter.
    apply NoDup_filter, Hp. }
  assert (NoDup (key <$> s')) as Hs'.
  { unfold s'. rewrite fmap_key_filter.
    apply NoDup_filter, Hs. }
  rewrite match_filter by assumption. f_equal; apply filter_all.
  - intros r Hr. rewrite <- Hperm. apply list_elem_of_fmap_2, Hr.
  - intros r Hr. rewrite Hperm. apply list_elem_of_fmap_2, Hr.
Qed.

(** X16: [match] after [sort]: when the two frames are outputs of [sort],
    the two matched frames have the same key column, in strictly ascending
    order, so that their rows correspond line by line; each is the sorted
    frame restricted to the keys of the other. *)
Theorem sorted_inputs_match_aligned
    (p_raw s_raw p_arr s_arr p' s' : list ArrivalRow) :
  sort p_raw = Ok p_arr → sort s_raw = Ok s_arr →
  match_ p_arr s_arr = (p', s') →
  key <$> p' = key <$> s'
  ∧ StronglySorted key_lt (key <$> p')
  ∧ p' = filter (λ r, key r ∈ key <$> s_arr) p_arr
  ∧ s' = filter (λ r, key r ∈ key <$> p_arr) s_arr.
Proof.
  intros Hsp Hss Hm.
  pose proof (sort_output_strict _ _ Hsp) as Sp.
  pose proof (sort_output_strict _ _ Hss) as Ss.
  pose proof (StronglySorted_strict_NoDup _ Sp) as Np.
  pose proof (StronglySorted_strict_NoDup _ Ss) as Ns.
  pose proof (matched_keys_Permutation _ _ Np Ns) as Hperm.
  rewrite match_filter in Hm by assumption. injection Hm as <- <-.
  assert (StronglySorted key_lt
            (key <$> filter (λ r, key r ∈ key <$> s_arr) p_arr)) as Sp'.
  { rewrite fmap_key_filter.
    apply StronglySorted_filter, Sp. }
  assert (StronglySorted key_lt
            (key <$> filter (λ r, key r ∈ key <$> p_arr) s_arr)) as Ss'.
  { rewrite fmap_key_filter.
    apply StronglySorted_filter, Ss. }
  split; [|split; [exact Sp' | split; reflexivity]].
  apply (StronglySorted_unique key_le);
    [apply StronglySorted_weaken, Sp' | apply StronglySorted_weaken, Ss'
    | exact Hperm].
Qed.

Lemma match_outputs_same_keys_witness :
  key <$> [row_tt 1 2 6] ≡ₚ key <$> [row_tt 1 2 7]
  ∧ length [row_tt 1 2 6] = length [row_tt 1 2 7].
Proof.
  apply (match_outputs_same_keys
           [row_tt 1 1 5; row_tt 1 2 6] [row_tt 1 2 7; row_tt 2 2 8]).
  - apply (bool_decide_unpack _). vm_compute. reflexivity.
  - apply (bool_decide_unpack _). vm_compute. reflexivity.
  - vm_compute. reflexivity.
Defined.

Lemma match_idempotent_witness :
  match_ [row_tt 1 2 6] [row_tt 1 2 7] = ([row_tt 1 2 6], [row_tt 1 2 7]).
Proof.
  apply (match_idempotent
           [row_tt 1 1 5; row_tt 1 2 6] [row_tt 1 2 7; row_tt 2 2 8]).
  - apply (bool_decide_unpack _). vm_compute. reflexivity.
  - apply (bool_decide_unpack _). vm_compute. reflexivity.
  - vm_compute. reflexivity.
Defined.

Lemma sorted_inputs_match_aligned_witness :
  key <$> [row_tt 1 2 6; row_tt 2 2 4] = key <$> [row_tt 1 2 7; row_tt 2 2 8]
  ∧ StronglySorted key_lt (key <$> [row_tt 1 2 6; row_tt 2 2 4])
  ∧ [row_tt 1 2 6; row_tt 2 2 4]
    = filter (λ r, key r ∈ key <$> [row_tt 1 2 7; row_tt 2 2 8])
        [row_tt 1 1 5; row_tt 1 2 6; row_tt 2 2 4]
  ∧ [row_tt 1 2 7; row_tt 2 2 8]
    = filter (λ r, key r ∈ key <$> [row_tt 1 1 5; row_tt 1 2 6; row_tt 2 2 4])
        [row_tt 1 2 7; row_tt 2 2 8].
Proof.
  apply (sorted_inputs_match_aligned
           [row_tt 2 2 4; row_tt 1 2 6; row_tt 1 1 5]
           [row_tt 2 2 8; row_tt 1 2 7]).
  - vm_compute. reflexivity.
  - vm_compute. reflexivity.
  - vm_compute. reflexivity.
Defined.

(** ** ArrivalExtractor and EventBatchProcessor *)

Lemma wappend_no_output_l (d : writers) : wappend no_output d = d.
Proof. destruct d. reflexivity. Qed.

Lemma wappend_no_output_r (w : writers) : wappend w no_output = w.
Proof. destruct w. unfold wappend. simpl. rewrite !app_nil_r. reflexivity. Qed.

Lemma wappend_assoc (a b c : writers) :
  wappend (wappend a b) c = wappend a (wappend b c).
Proof. unfold wappend. simpl. rewrite !app_assoc. reflexivity. Qed.

Lemma framed_intro {A} (m : io A) (res : result A) (d : writers) :
  (∀ w, m w = (res, wappend w d)) → framed m.
Proof.
  intros H w. rewrite (H no_output), wappend_no_output_l. apply H.
Qed.

Lemma framed_ret {A} (a : A) : framed (io_ret a).
Proof. apply (framed_intro _ (Ok a) no_output). intros w. rewrite wappend_no_output_r. reflexivity. Qed.

Lemma framed_lift {A} (x : result A) : framed (lift x).
Proof. apply (framed_intro _ x no_output). intros w. rewrite wappend_no_output_r. reflexivity. Qed.

Lemma framed_p_writerow (r : ArrivalRow) : framed (p_writerow r).
Proof.
  apply (framed_intro _ (Ok ()) (mkWriters [r] [] [])). intros w.
  unfold p_writerow, wappend. simpl. rewrite !app_nil_r. reflexivity.
Qed.

Lemma framed_s_writerow (r : ArrivalRow) : framed (s_writerow r).
Proof.
  apply (framed_intro _ (Ok ()) (mkWriters [] [r] [])). intros w.
  unfold s_writerow, wappend. simpl. rewrite !app_nil_r. reflexivity.
Qed.

Lemma framed_log_emit (m : log_record) : framed (log_emit m).
Proof.
  apply (framed_intro _ (Ok ()) (mkWriters [] [] [m])). intros w.
  unfold log_emit, wappend. simpl. rewrite !app_nil_r. reflexivity.
Qed.

Lemma framed_bind {A B} (m : io A) (f : A → io B) :
  framed m → (∀ a, framed (f a)) → framed (io_bind m f).
Proof.
  intros Hm Hf w. unfold io_bind. rewrite (Hm w).
  destruct (m no_output) as [[a|e] d]; simpl.
  - rewrite (Hf a (wappend w d)), (Hf a d).
    destruct (f a no_output) as [res d']. simpl.
    rewrite wappend_assoc. reflexivity.
  - reflexivity.
Qed.

Lemma framed_for_each {A} (body : A → io unit) (xs : list A) :
  (∀ x, framed (body x)) → framed (for_each body xs).
Proof.
  intros Hb. induction xs as [|x xs IH]; simpl.
  - apply framed_ret.
  - apply framed_bind; [apply Hb | intros _; exact IH].
Qed.

Section GatherFrames.

Context (mode : Py.rounding) (geodetic_degrees : Q → Q → Q → Q → Q).
Context (stations : gmap string Station.t) (nx ny : Z) (dz : Q).

Lemma framed_process_arrival (wave_type p_type s_type : string)
    (ev_number : Z) (origin : Origin.t) (dx dy : Q) (event_block : Z)
    (arr : Arrival.t) :
  framed (process_arrival mode geodetic_degrees stations nx ny dz wave_type
            p_type s_type ev_number origin dx dy event_block arr).
Proof.
  unfold process_arrival.
  apply framed_bind; [apply framed_lift|]. intros pick.
  destruct (stations !! Pick.station_code pick) as [sta|];
    [|apply framed_log_emit].
  destruct (decide _); [apply framed_log_emit|].
  apply framed_bind; [apply framed_lift|]. intros station_block.
  destruct (decide _); [|apply framed_ret].
  destruct (decide _); [apply framed_p_writerow | apply framed_s_writerow].
Qed.

Lemma framed_process_event (event : Event.t) (wave_type : string) :
  framed (process_event mode geodetic_degrees stations nx ny dz event
            wave_type).
Proof.
  unfold process_event.
  apply framed_bind; [apply framed_lift|]. intros [p_type s_type].
  apply framed_bind; [apply framed_lift|]. intros timestamp.
  apply framed_bind; [apply framed_lift|]. intros origin.
  apply framed_bind; [apply framed_lift|]. intros dx.
  apply framed_bind; [apply framed_lift|]. intros dy.
  apply framed_bind; [apply framed_lift|]. intros event_block.
  apply framed_for_each. intros arr. apply framed_process_arrival.
Qed.

Lemma framed_process_many_events (events : list Event.t)
    (wave_type : string) :
  framed (process_many_events mode geodetic_degrees stations nx ny dz events
            wave_type).
Proof.
  unfold process_many_events.
  apply framed_bind; [apply framed_lift|]. intros _.
  apply framed_for_each. intros e.
  apply framed_bind; [apply framed_process_event|]. intros _.
  apply framed_log_emit.
Qed.

End GatherFrames.

Lemma div_ok_inv (a b q : Q) : Py.div a b = Ok q → ¬ (b == 0)%Q.
Proof.
  intros H Hb. rewrite (div_zero _ _ Hb) in H. discriminate.
Qed.

Lemma find_block_ok_inv (mode : Py.rounding) (dx dy dz : Q) (nx ny : Z)
    (lat lon z : Q) (b : Z) :
  _find_block mode dx dy dz nx ny lat lon z = Ok b →
  ¬ (dx == 0)%Q ∧ ¬ (dy == 0)%Q ∧ ¬ (dz == 0)%Q.
Proof.
  unfold _find_block. intros H.
  destruct (Qeq_dec dx 0) as [Hx|Hx];
    [rewrite (div_zero _ _ Hx) in H; discriminate|].
  rewrite (div_ok _ _ Hx) in H. simpl in H.
  destruct (Qeq_dec dy 0) as [Hy|Hy];
    [rewrite (div_zero _ _ Hy) in H; discriminate|].
  rewrite (div_ok _ _ Hy) in H. simpl in H.
  destruct (Qeq_dec dz 0) as [Hz|Hz];
    [rewrite (div_zero _ _ Hz) in H; discriminate|].
  tauto.
Qed.

Lemma for_each_app {A} (body : A → io unit) (xs ys : list A) (w : writers) :
  for_each body (xs ++ ys) w
  = io_bind (for_each body xs) (λ _, for_each body ys) w.
Proof.
  revert w. induction xs as [|x xs IH]; intros w; simpl.
  - reflexivity.
  - unfold io_bind in *. destruct (body x w) as [[[]|e] w1].
    + apply IH.
    + reflexivity.
Qed.

Lemma rows_written_wappend (w d : writers) :
  rows_written (wappend w d) = (rows_written w + rows_written d)%nat.
Proof. unfold rows_written, wappend. simpl. rewrite !length_app. lia. Qed.

Lemma for_each_ok_inv {A} (body : A → io unit) (xs : list A) (w w' : writers) :
  for_each body xs w = (Ok (), w') →
  ∀ x, x ∈ xs → ∃ w1 w2, body x w1 = (Ok (), w2).
Proof.
  revert w. induction xs as [|y xs IH]; intros w Hrun x Hx; [inversion Hx|].
  simpl in Hrun. unfold io_bind in Hrun.
  destruct (body y w) as [[[]|e] wy] eqn:Hy; [|discriminate].
  apply elem_of_cons in Hx as [->|Hx].
  - exists w, wy. exact Hy.
  - exact (IH _ Hrun x Hx).
Qed.

(** One turn of a loop of framed turns, from empty files. *)
Lemma for_each_cons_framed {A} (body : A → io unit) (x : A) (xs : list A) :
  (∀ x, framed (body x)) →
  for_each body (x :: xs) no_output
  = match body x no_output with
    | (Ok _, d) => ((for_each body xs no_output).1,
                    wappend d (for_each body xs no_output).2)
    | (Raise e, d) => (Raise e, d)
    end.
Proof.
  intros Hb. simpl. unfold io_bind.
  destruct (body x no_output) as [[[]|e] d]; [|reflexivity].
  apply (framed_for_each body xs Hb d).
Qed.

(** Turns that end without exception and write no row can be left out of a
    loop: the result and the rows are the same. *)
Lemma for_each_filter_rows {A} (body : A → io unit) (keep : A → bool)
    (xs : list A) :
  (∀ x, framed (body x)) →
  (∀ x, x ∈ xs → keep x = false →
     ∃ d, body x no_output = (Ok (), d) ∧ p_rows d = [] ∧ s_rows d = []) →
  (for_each body xs no_output).1
  = (for_each body (List.filter keep xs) no_output).1
  ∧ p_rows (for_each body xs no_output).2
    = p_rows (for_each body (List.filter keep xs) no_output).2
  ∧ s_rows (for_each body xs no_output).2
    = s_rows (for_each body (List.filter keep xs) no_output).2.
Proof.
  intros Hb. induction xs as [|x xs IH]; intros Hskip.
  - simpl. auto.
  - assert (∀ y, y ∈ xs → keep y = false →
              ∃ d, body y no_output = (Ok (), d) ∧ p_rows d = [] ∧ s_rows d = [])
      as Hskip' by (intros y Hy; apply Hskip; right; exact Hy).
    destruct (IH Hskip') as (IH1 & IH2 & IH3).
    cbn [List.filter]. destruct (keep x) eqn:Hk.
    + rewrite !for_each_cons_framed by exact Hb.
      destruct (body x no_output) as [[[]|e] d]; [|auto].
      cbn [fst snd wappend p_rows s_rows]. rewrite IH1, IH2, IH3. auto.
    + rewrite for_each_cons_framed by exact Hb.
      destruct (Hskip x) as (d & -> & Hp & Hs); [left | exact Hk |].
      cbn [fst snd wappend p_rows s_rows]. rewrite Hp, Hs. auto.
Qed.

(** A loop of turns that write at most one row each writes at most as many
    rows as it has turns; if it ends without exception, it writes exactly as
    many rows as it has turns that write one. *)
Lemma for_each_rows_written {A} (body : A → io unit) (keep : A → bool)
    (xs : list A) :
  (∀ x, framed (body x)) →
  (∀ x res d, x ∈ xs → body x no_output = (res, d) →
     (rows_written d ≤ 1)%nat) →
  (∀ x d, x ∈ xs → body x no_output = (Ok (), d) →
     rows_written d = if keep x then 1%nat else 0%nat) →
  (rows_written (for_each body xs no_output).2 ≤ length xs)%nat
  ∧ ((for_each body xs no_output).1 = Ok () →
     rows_written (for_each body xs no_output).2
     = length (List.filter keep xs)).
Proof.
  intros Hb. induction xs as [|x xs IH]; intros Hone Hkeep.
  - simpl. split; [unfold rows_written; simpl; lia | reflexivity].
  - destruct IH as [IH1 IH2].
    { intros y res d Hy. apply Hone. right. exact Hy. }
    { intros y d Hy. apply Hkeep. right. exact Hy. }
    rewrite for_each_cons_framed by exact Hb.
    destruct (body x no_output) as [[[]|e] d] eqn:Hx.
    + cbn [fst snd]. rewrite rows_written_wappend.
      pose proof (Hone x _ _ ltac:(left) Hx) as H1.
      pose proof (Hkeep x _ ltac:(left) Hx) as H2.
      split; [simpl; lia|]. intros Hok. rewrite (IH2 Hok), H2.
      cbn [List.filter]. destruct (keep x); simpl; lia.
    + cbn [fst snd]. pose proof (Hone x _ _ ltac:(left) Hx) as H1.
      split; [simpl; lia | discriminate].
Qed.

Section GatherMore.

Context (mode : Py.rounding) (geodetic_degrees : Q → Q → Q → Q → Q).
Context (stations : gmap string Station.t) (nx ny : Z) (dz : Q).

Local Abbreviation process_arrival :=
  (process_arrival mode geodetic_degrees stations nx ny dz).
Local Abbreviation process_event :=
  (process_event mode geodetic_degrees stations nx ny dz).
Local Abbreviation process_many_events :=
  (process_many_events mode geodetic_degrees stations nx ny dz).
Local Abbreviation created := (created mode geodetic_degrees stations nx ny dz).
Local Abbreviation is_passed_over := (passed_over geodetic_degrees stations).

(** A turn of the loop for an arrival that is passed over ends without
    exception and writes no row. *)
Lemma process_arrival_passed_over (wave_type p_type s_type : string)
    (ev_number : Z) (origin : Origin.t) (dx dy : Q) (event_block : Z)
    (arr : Arrival.t) :
  ¬ (dx == 0)%Q → ¬ (dy == 0)%Q → ¬ (dz == 0)%Q →
  is_passed_over wave_type origin arr = true →
  ∃ d, process_arrival wave_type p_type s_type ev_number origin dx dy
         event_block arr no_output = (Ok (), d)
       ∧ p_rows d = [] ∧ s_rows d = [].
Proof.
  intros Hx Hy Hz Hp. unfold passed_over in Hp. unfold_arrival.
  destruct (Arrival.pick_id arr) as [pick|]; [|discriminate]. simpl.
  destruct (stations !! Pick.station_code pick) as [sta|].
  - destruct (decide _) as [Hfar|Hnear].
    + eexists. split; [reflexivity|]. split; reflexivity.
    + rewrite (find_block_ok _ _ _ _ _ _ _ _ _ Hx Hy Hz).
      rewrite bool_decide_eq_false_2 in Hp by exact Hnear. simpl in Hp.
      apply negb_true_iff, bool_decide_eq_false in Hp.
      destruct (decide _) as [Hin|_]; [contradiction|].
      eexists. split; [reflexivity|]. split; reflexivity.
  - eexists. split; [reflexivity|]. split; reflexivity.
Qed.

(** A turn of the loop for an arrival that is not passed over either raises
    for the missing pick or writes one row. *)
Lemma process_arrival_kept (wave_type p_type s_type : string)
    (ev_number : Z) (origin : Origin.t) (dx dy : Q) (event_block : Z)
    (arr : Arrival.t) (d : writers) :
  is_passed_over wave_type origin arr = false →
  process_arrival wave_type p_type s_type ev_number origin dx dy
    event_block arr no_output = (Ok (), d) →
  rows_written d = 1%nat.
Proof.
  intros Hp Hrun. unfold passed_over in Hp. unfold_arrival in Hrun.
  destruct (Arrival.pick_id arr) as [pick|]; [|discriminate]. simpl in Hrun.
  destruct (stations !! Pick.station_code pick) as [sta|]; [|discriminate].
  apply orb_false_iff in Hp as [Hnear Hin].
  apply bool_decide_eq_false in Hnear.
  apply negb_false_iff, bool_decide_eq_true in Hin.
  destruct (decide _) as [Hfar|_]; [contradiction|].
  destruct (_find_block _ _ _ _ _ _ _ _ _) as [station_block|e];
    [|discriminate].
  destruct (decide _) as [_|Hout]; [|contradiction].
  destruct (decide _); injection Hrun as <-; reflexivity.
Qed.

(** A turn of the loop writes at most one row. *)
Lemma process_arrival_one_row (wave_type p_type s_type : string)
    (ev_number : Z) (origin : Origin.t) (dx dy : Q) (event_block : Z)
    (arr : Arrival.t) (res : result unit) (d : writers) :
  process_arrival wave_type p_type s_type ev_number origin dx dy
    event_block arr no_output = (res, d) →
  (rows_written d ≤ 1)%nat.
Proof.
  intros Hrun. unfold_arrival in Hrun.
  destruct (Arrival.pick_id arr) as [pick|]; simpl in Hrun;
    [|injection Hrun as _ <-; unfold rows_written; simpl; lia].
  destruct (stations !! Pick.station_code pick) as [sta|];
    [|injection Hrun as _ <-; unfold rows_written; simpl; lia].
  destruct (decide _) as [Hfar|_];
    [injection Hrun as _ <-; unfold rows_written; simpl; lia|].
  destruct (_find_block _ _ _ _ _ _ _ _ _) as [station_block|e];
    [|injection Hrun as _ <-; unfold rows_written; simpl; lia].
  destruct (decide _) as [_|Hout];
    [|injection Hrun as _ <-; unfold rows_written; simpl; lia].
  destruct (decide _); injection Hrun as _ <-; unfold rows_written; simpl; lia.
Qed.

(** X17: an event is processed without exception only if the wave type
    has two tokens, the event has a creation time and a preferred origin,
    none of [nx], [ny], [dz] is zero, and every arrival of the origin has a
    pick: each of these is needed, whatever the stations and the phases. *)
Theorem process_event_succeeds_only_if (event : Event.t)
    (wave_type : string) (w w' : writers) :
  process_event event wave_type w = (Ok (), w') →
  (∃ p_type s_type, Py.split wave_type = [p_type; s_type])
  ∧ is_Some (Event.creation_time event)
  ∧ nx ≠ 0 ∧ ny ≠ 0 ∧ ¬ (dz == 0)%Q
  ∧ ∃ origin, Event.preferred_origin event = Some origin
      ∧ Forall (λ arr, is_Some (Arrival.pick_id arr))
          (Origin.arrivals origin).
Proof.
  intros Hrun. unfold_event in Hrun.
  destruct (Py.split wave_type) as [|p_type [|s_type [|]]] eqn:Hsplit;
    simpl in Hrun; try discriminate.
  destruct (Event.creation_time event) as [timestamp|] eqn:Hct;
    simpl in Hrun; [|discriminate].
  destruct (Event.preferred_origin event) as [origin|] eqn:Hor;
    simpl in Hrun; [|discriminate].
  destruct (Py.div 360 (inject_Z nx)) as [dx|] eqn:Hdx; [|discriminate].
  destruct (Py.div 180 (inject_Z ny)) as [dy|] eqn:Hdy; [|discriminate].
  destruct (_find_block _ _ _ _ _ _ _ _ _) as [event_block|] eqn:Hb;
    [|discriminate].
  apply find_block_ok_inv in Hb as (_ & _ & Hz).
  apply div_ok_inv in Hdx, Hdy.
  split; [eauto|]. split; [eauto|].
  split; [intros ->; apply Hdx; reflexivity|].
  split; [intros ->; apply Hdy; reflexivity|].
  split; [exact Hz|].
  exists origin. split; [reflexivity|].
  apply Forall_forall. intros arr Harr.
  destruct (for_each_ok_inv _ _ _ _ Hrun arr Harr) as (w1 & w2 & Hturn).
  unfold_arrival in Hturn.
  destruct (Arrival.pick_id arr); [eauto | discriminate].
Qed.

(** X18: when an event is processed without exception, the arrivals that
    the loop passed over (station not in the inventory, station beyond 90
    degrees, phase outside the pair) have left nothing in the two files: the
    event without them is processed without exception too and gives the
    same rows.  Only the log differs. *)
Theorem passed_over_arrivals_leave_no_trace (event : Event.t)
    (wave_type : string) (w w' : writers) :
  process_event event wave_type w = (Ok (), w') →
  ∃ w'',
    process_event (without_passed_over geodetic_degrees stations wave_type
                     event) wave_type w = (Ok (), w'')
    ∧ p_rows w'' = p_rows w' ∧ s_rows w'' = s_rows w'.
Proof.
  rewrite (framed_process_event _ _ _ _ _ _ event wave_type w).
  rewrite (framed_process_event _ _ _ _ _ _
             (without_passed_over _ _ _ event) wave_type w).
  intros [= Hres <-].
  enough ((process_event event wave_type no_output).1
          = (process_event (without_passed_over geodetic_degrees stations
                              wave_type event) wave_type no_output).1
          ∧ p_rows (process_event event wave_type no_output).2
            = p_rows (process_event (without_passed_over geodetic_degrees
                        stations wave_type event) wave_type no_output).2
          ∧ s_rows (process_event event wave_type no_output).2
            = s_rows (process_event (without_passed_over geodetic_degrees
                        stations wave_type event) wave_type no_output).2)
    as (E1 & E2 & E3).
  { eexists. split; [rewrite <- E1, Hres; reflexivity|].
    cbn [wappend p_rows s_rows]. rewrite E2, E3. split; reflexivity. }
  clear Hres. unfold_event. unfold without_passed_over.
  destruct (Py.split wave_type) as [|p_type [|s_type [|]]] eqn:Hsplit;
    simpl; auto.
  destruct (Event.creation_time event) as [timestamp|]; simpl; auto.
  destruct (Event.preferred_origin event) as [origin|]; simpl; auto.
  destruct (Py.div 360 (inject_Z nx)) as [dx|]; auto.
  destruct (Py.div 180 (inject_Z ny)) as [dy|]; auto.
  destruct (_find_block _ _ _ _ _ _ _ _ _) as [event_block|] eqn:Hb; auto.
  apply find_block_ok_inv in Hb as (Hx & Hy & Hz).
  set (body := process_arrival _ _ _ _ _ _ _ _).
  apply (for_each_filter_rows body
           (λ arr, negb (is_passed_over wave_type origin arr))).
  - intros arr. apply framed_process_arrival.
  - intros arr _ Hk. apply negb_false_iff in Hk.
    apply process_arrival_passed_over; assumption.
Qed.

(** X19: a batch that follows a batch processed without exception
    continues the two files and the log where the first ended: the run of
    [es1 ++ es2] has the result of the run of [es2] alone, and its files are
    those of [es1] followed by those of [es2]. *)
Theorem batch_concatenation (es1 es2 : list Event.t) (wave_type : string)
    (w1 : writers) :
  process_many_events es1 wave_type no_output = (Ok (), w1) →
  process_many_events (es1 ++ es2) wave_type no_output
  = ((process_many_events es2 wave_type no_output).1,
     wappend w1 (process_many_events es2 wave_type no_output).2).
Proof.
  intros H1.
  pose proof (framed_process_many_events mode geodetic_degrees stations nx ny
                dz es2 wave_type w1) as H2.
  unfold_batch in H1. unfold_batch in H2. unfold_batch.
  destruct (Py.unpack2 (Py.split wave_type)) as [[p_type s_type]|e];
    [|discriminate].
  rewrite for_each_app. unfold io_bind at 1. unfold io_bind in H1.
  rewrite H1. exact H2.
Qed.

(** X20: an event adds at most one row per arrival of its preferred
    origin to the two files together, also when it raises; when it is
    processed without exception it adds exactly one row for each arrival
    that is not passed over. *)
Theorem rows_per_event (event : Event.t) (wave_type : string)
    (w w' : writers) (res : result unit) :
  process_event event wave_type w = (res, w') →
  ∃ newp news,
    p_rows w' = p_rows w ++ newp ∧ s_rows w' = s_rows w ++ news
    ∧ (length newp + length news ≤ length (event_arrivals event))%nat
    ∧ (res = Ok () →
       ∃ origin, Event.preferred_origin event = Some origin
         ∧ (length newp + length news)%nat
           = length (List.filter
                       (λ arr, negb (is_passed_over wave_type origin arr))
                       (Origin.arrivals origin))).
Proof.
  rewrite (framed_process_event _ _ _ _ _ _ event wave_type w).
  intros [= <- <-].
  exists (p_rows (process_event event wave_type no_output).2),
         (s_rows (process_event event wave_type no_output).2).
  split; [reflexivity|]. split; [reflexivity|].
  change (length (p_rows ?d) + length (s_rows ?d))%nat with (rows_written d).
  unfold event_arrivals. unfold_event.
  destruct (Py.split wave_type) as [|p_type [|s_type [|]]] eqn:Hsplit;
    simpl; try (split; [unfold rows_written; simpl; lia | discriminate]).
  destruct (Event.creation_time event) as [timestamp|]; simpl;
    [|split; [unfold rows_written; simpl; lia | discriminate]].
  destruct (Event.preferred_origin event) as [origin|]; simpl;
    [|split; [unfold rows_written; simpl; lia | discriminate]].
  destruct (Py.div 360 (inject_Z nx)) as [dx|];
    [|split; [unfold rows_written; simpl; lia | discriminate]].
  destruct (Py.div 180 (inject_Z ny)) as [dy|];
    [|split; [unfold rows_written; simpl; lia | discriminate]].
  destruct (_find_block _ _ _ _ _ _ _ _ _) as [event_block|] eqn:Hb;
    [|split; [unfold rows_written; simpl; lia | discriminate]].
  apply find_block_ok_inv in Hb as (Hx & Hy & Hz).
  set (body := process_arrival _ _ _ _ _ _ _ _).
  destruct (for_each_rows_written body
              (λ arr, negb (is_passed_over wave_type origin arr))
              (Origin.arrivals origin)) as [Hle Heq].
  - intros arr. apply framed_process_arrival.
  - intros arr res d _. apply process_arrival_one_row.
  - intros arr d _ Hturn.
    destruct (is_passed_over wave_type origin arr) eqn:Hp; simpl.
    + destruct (process_arrival_passed_over wave_type p_type s_type
                  (Py.int (timestamp * 1000000)%Q) origin dx dy event_block
                  arr Hx Hy Hz Hp) as (d' & Hd' & Hp' & Hs').
      unfold body in Hturn. rewrite Hd' in Hturn. injection Hturn as <-.
      unfold rows_written. rewrite Hp', Hs'. reflexivity.
    + unfold body in Hturn. exact (process_arrival_kept _ _ _ _ _ _ _ _ _ _ Hp Hturn).
  - split; [exact Hle|]. intros Hok. exists origin. split; [reflexivity|].
    apply Heq. exact Hok.
Qed.

(** X21: the rows that an event adds to the two files all carry the
    fields of that event: its creation time in microseconds as event number,
    the longitude, latitude and depth of its preferred origin, and the block
    of that origin. *)
Theorem rows_carry_event_fields (event : Event.t) (wave_type : string)
    (w w' : writers) (res : result unit) :
  process_event event wave_type w = (res, w') →
  ∃ newp news,
    p_rows w' = p_rows w ++ newp ∧ s_rows w' = s_rows w ++ news
    ∧ ∀ r, r ∈ newp ++ news →
        ∃ timestamp origin,
          Event.creation_time event = Some timestamp
          ∧ Event.preferred_origin event = Some origin
          ∧ event_number r = Py.int (timestamp * 1000000)%Q
          ∧ source_longitude r = Origin.longitude origin
          ∧ source_latitude r = Origin.latitude origin
          ∧ source_depth r = Origin.depth origin
          ∧ block_id mode nx ny dz (Origin.latitude origin)
              (Origin.longitude origin) (Origin.depth origin)
            = Ok (source_block r).
Proof.
  intros Hrun.
  destruct (process_event_extends _ _ _ _ _ _ _ _ _ _ _ Hrun)
    as (newp & news & Hp & Hs & Fp & Fs).
  exists newp, news. split; [exact Hp|]. split; [exact Hs|].
  rewrite Forall_forall in Fp, Fs.
  intros r [Hr|Hr]%elem_of_app.
  - destruct (Fp r Hr). eauto 10.
  - destruct (Fs r Hr). eauto 10.
Qed.

End GatherMore.

Lemma process_event_succeeds_only_if_witness :
  (∃ p_type s_type, Py.split "P S" = [p_type; s_type])
  ∧ is_Some (Event.creation_time sample_event)
  ∧ 1440 ≠ 0 ∧ 720 ≠ 0 ∧ ¬ (25 == 0)%Q
  ∧ ∃ origin, Event.preferred_origin sample_event = Some origin
      ∧ Forall (λ arr, is_Some (Arrival.pick_id arr))
          (Origin.arrivals origin).
Proof.
  apply (process_event_succeeds_only_if Py.HalfEven meridian_degrees
           sample_stations 1440 720 25 sample_event "P S" no_output
           (process_event Py.HalfEven meridian_degrees sample_stations
              1440 720 25 sample_event "P S" no_output).2).
  vm_compute. reflexivity.
Defined.

Lemma passed_over_arrivals_leave_no_trace_witness :
  ∃ w'',
    process_event Py.HalfEven meridian_degrees sample_stations 1440 720 25
      (without_passed_over meridian_degrees sample_stations "P S"
         sample_event) "P S" no_output = (Ok (), w'')
    ∧ p_rows w'' = p_rows (sample_gather [sample_event] "P S").2
    ∧ s_rows w'' = s_rows (sample_gather [sample_event] "P S").2.
Proof.
  apply (passed_over_arrivals_leave_no_trace Py.HalfEven meridian_degrees
           sample_stations 1440 720 25 sample_event "P S" no_output
           (process_event Py.HalfEven meridian_degrees sample_stations
              1440 720 25 sample_event "P S" no_output).2).
  vm_compute. reflexivity.
Defined.

Lemma batch_concatenation_witness :
  process_many_events Py.HalfEven meridian_degrees sample_stations 1440 720 25
    ([sample_event] ++ [event_above_sea_level]) "P S" no_output
  = ((sample_gather [event_above_sea_level] "P S").1,
     wappend (sample_gather [sample_event] "P S").2
       (sample_gather [event_above_sea_level] "P S").2).
Proof.
  apply (batch_concatenation Py.HalfEven meridian_degrees sample_stations
           1440 720 25 [sample_event] [event_above_sea_level] "P S").
  vm_compute. reflexivity.
Defined.

Lemma rows_per_event_witness :
  ∃ newp news,
    p_rows (sample_gather [sample_event] "P S").2 = [] ++ newp
    ∧ s_rows (sample_gather [sample_event] "P S").2 = [] ++ news
    ∧ (length newp + length news ≤ 5)%nat.
Proof.
  destruct (rows_per_event Py.HalfEven meridian_degrees sample_stations
              1440 720 25 sample_event "P S" no_output
              (process_event Py.HalfEven meridian_degrees sample_stations
                 1440 720 25 sample_event "P S" no_output).2 (Ok ()))
    as (newp & news & Hp & Hs & Hle & _).
  - vm_compute. reflexivity.
  - exists newp, news. split; [exact Hp|]. split; [exact Hs | exact Hle].
Defined.

Lemma rows_carry_event_fields_witness :
  ∃ newp news,
    p_rows (sample_gather [sample_event] "P S").2 = [] ++ newp
    ∧ s_rows (sample_gather [sample_event] "P S").2 = [] ++ news
    ∧ ∀ r, r ∈ newp ++ news →
        event_number r = 1500000 ∧ source_block r = 41817641.
Proof.
  destruct (rows_carry_event_fields Py.HalfEven meridian_degrees
              sample_stations 1440 720 25 sample_event "P S" no_output
              (process_event Py.HalfEven meridian_degrees sample_stations
                 1440 720 25 sample_event "P S" no_output).2 (Ok ()))
    as (newp & news & Hp & Hs & Hall).
  - vm_compute. reflexivity.
  - exists newp, news. split; [exact Hp|]. split; [exact Hs|].
    intros r Hr.
    destruct (Hall r Hr) as (ts & o & Hts & Ho & Hn & _ & _ & _ & Hb).
    injection Hts as <-. injection Ho as <-. split.
    + rewrite Hn. vm_compute. reflexivity.
    + vm_compute in Hb. injection Hb as Hb. symmetry. exact Hb.
Defined.

(** ** Station inventory *)

Lemma read_rows_lookup {Rec} (_make : list string → option Rec)
    (station_code : Rec → string) (reader : list (list string)) :
  ∀ d d', read_rows Rec _make station_code d reader = inr d' →
  ∃ recs, mapM _make reader = Some recs
    ∧ ∀ c, d' !! c
           = match last (filter (λ s, station_code s = c) recs) with
             | Some s => Some s
             | None => d !! c
             end.
Proof.
  induction reader as [|line reader IH]; intros d d' Hrun; simpl in Hrun.
  - injection Hrun as <-. exists []. split; [reflexivity|]. reflexivity.
  - destruct (_make line) as [s|] eqn:Hs; [|discriminate].
    destruct (IH _ _ Hrun) as (recs & Hrecs & Hlook).
    exists (s :: recs). split.
    + cbn. rewrite Hs. cbn. rewrite Hrecs. reflexivity.
    + intros c. rewrite Hlook, filter_cons.
      destruct (decide (station_code s = c)) as [<-|Hne].
      * rewrite last_cons.
        destruct (last _); [reflexivity|]. apply lookup_insert_eq.
      * destruct (last _); [reflexivity|].
        apply lookup_insert_ne. exact Hne.
Qed.

(** X22: [read_stations] raises [StopIteration] on a file without a
    line, never parses the first line, raises [TypeError] exactly when a
    later line is not a station, and otherwise maps each station code to the
    last line of the file that has it. *)
Theorem read_stations_last_line_wins {Rec} (_make : list string → option Rec)
    (station_code : Rec → string) (header : list string)
    (lines : list (list string)) :
  read_stations Rec _make station_code [] = inl StopIteration
  ∧ match read_stations Rec _make station_code (header :: lines) with
    | inl e => e = TypeError ∧ mapM _make lines = None
    | inr d =>
        ∃ recs, mapM _make lines = Some recs
          ∧ ∀ c, d !! c = last (filter (λ s, station_code s = c) recs)
    end.
Proof.
  split; [reflexivity|]. simpl.
  destruct (read_rows _ _ _ _ _) as [e|d] eqn:Hrun.
  - revert Hrun. generalize (∅ : gmap string Rec).
    induction lines as [|line lines IH]; intros d Hrun; simpl in Hrun;
      [discriminate|].
    cbn. destruct (_make line) as [s|] eqn:Hs.
    + destruct (IH _ Hrun) as [-> Hnone]. split; [reflexivity|].
      cbn. rewrite Hnone. reflexivity.
    + injection Hrun as <-. split; reflexivity.
  - destruct (read_rows_lookup _ _ _ _ _ Hrun) as (recs & Hrecs & Hlook).
    exists recs. split; [exact Hrecs|]. intros c. rewrite Hlook.
    destruct (last _); [reflexivity|]. apply lookup_empty.
Qed.
